(** * RTMPy: call correlation, exposed-method tables, stream registry and
      the connection state machine

    A shallow embedding of [rtmpy/rpc.py] and [rtmpy/rtmp/__init__.py].

    Python objects that are mutated in place (the handler, the protocol, the
    class objects, Deferreds) become explicit state that every method takes
    and returns.  A Python [dict] is a [gmap], Python integers are [Z], and a
    method that can raise returns an [outcome]. *)

From Stdlib Require Import ZArith Lia.
From stdpp Require Import gmap strings list fin_maps sorting.

Local Open Scope Z_scope.

(** ** Python values, exceptions and results *)

(** The exceptions the two modules raise (or let escape from a builtin).
    Messages built with [%r] keep the format string and the formatted
    argument apart. *)
Inductive PyExc : Type :=
| ValueError (msg : string) (arg : Z)
| IndexError (msg : string) (arg : Z)
| KeyError (key : Z)
| RuntimeError (msg : string) (arg : string)
| AttributeError (obj attr : string)
| CallFailed (msg : string) (arg : Z)
| AlreadyCalledError
| NotImplementedError.

Inductive outcome (A : Type) : Type :=
| Returned (a : A)
| Raised (e : PyExc).
Arguments Returned {A} a.
Arguments Raised {A} e.

Definition is_Raised {A} (o : outcome A) : bool :=
  match o with Raised _ => true | Returned _ => false end.

(** [list.remove(x)]: drops the first occurrence, [None] when [x] is absent
    (Python raises [ValueError] there). *)
Fixpoint list_remove_first (x : Z) (l : list Z) : option (list Z) :=
  match l with
  | [] => None
  | y :: l' =>
      if bool_decide (y = x) then Some l'
      else cons y <$> list_remove_first x l'
  end.

(** Number of occurrences of an id in a list. *)
Fixpoint occurrences (x : Z) (l : list Z) : nat :=
  match l with
  | [] => O
  | y :: l' => ((if bool_decide (y = x) then 1 else 0) + occurrences x l')%nat
  end.

(** ** rtmpy.rtmp: the stream registry of [BaseProtocol] *)

Module StreamManager.

(** [MAX_STREAMS = 0xffff] *)
Definition MAX_STREAMS : Z := 65535.

(** A stream is a Python object held by reference; [registerStream] stamps
    its [streamId] attribute. *)
Definition StreamRef : Type := nat.

(** The attributes [handshakeSuccess] creates and the stream methods use:
    [self.streams], [self.activeStreams], and the [streamId] attribute of
    the stream objects. *)
Record t : Type := mk {
  streams : gmap Z StreamRef;
  activeStreams : list Z;
  streamId_attr : gmap StreamRef Z
}.

(** State right after [handshakeSuccess]: [self.streams = {}],
    [self.activeStreams = []]. *)
Definition fresh : t :=
  {| streams := ∅; activeStreams := []; streamId_attr := ∅ |}.

Definition registerStream (streamId : Z) (stream : StreamRef) (m : t)
  : outcome unit * t :=
  if (streamId <? 0) || (streamId >? MAX_STREAMS) then
    (Raised (ValueError "streamId is not in range (got:%r)" streamId), m)
  else
    (Returned tt,
     {| streams := <[streamId := stream]> (streams m);
        activeStreams := activeStreams m ++ [streamId];
        streamId_attr := <[stream := streamId]> (streamId_attr m) |}).

Definition getStream (streamId : Z) (m : t) : outcome StreamRef :=
  match streams m !! streamId with
  | Some s => Returned s
  | None => Raised (KeyError streamId)
  end.

Definition removeStream (streamId : Z) (m : t) : outcome StreamRef * t :=
  match streams m !! streamId with
  | None => (Raised (IndexError "Unknown streamId %r" streamId), m)
  | Some s =>
      let m1 := {| streams := delete streamId (streams m);
                   activeStreams := activeStreams m;
                   streamId_attr := streamId_attr m |} in
      match list_remove_first streamId (activeStreams m) with
      | None =>
          (Raised (ValueError "list.remove(x): x not in list" streamId), m1)
      | Some l =>
          (Returned s,
           {| streams := streams m1;
              activeStreams := l;
              streamId_attr := streamId_attr m1 |})
      end
  end.

(** [enumerate(l)], counting from [j]. *)
Fixpoint enumerate_from (j : Z) (l : list Z) : list (Z * Z) :=
  match l with
  | [] => []
  | x :: l' => (j, x) :: enumerate_from (j + 1) l'
  end.

(** The [for j, streamId in enumerate(...)] loop with its counter [i]:
    the test is on the position [j], the id [streamId] is not read. *)
Fixpoint scan (items : list (Z * Z)) (i : Z) : Z :=
  match items with
  | [] => i
  | (j, streamId) :: rest =>
      if negb (j =? i) then i else scan rest (i + 1)
  end.

(** [None] is the no-capacity result; [self.activeStreams.sort()] sorts the
    list in place, so the sorted list is part of the state afterwards. *)
Definition getNextAvailableStreamId (m : t) : option Z * t :=
  if Z.of_nat (length (activeStreams m)) =? MAX_STREAMS then (None, m)
  else
    let sorted := merge_sort Z.le (activeStreams m) in
    (Some (scan (enumerate_from 0 sorted) 0),
     {| streams := streams m;
        activeStreams := sorted;
        streamId_attr := streamId_attr m |}).

(** Registering a run of ids, each with its own stream object. *)
Fixpoint registerAll (ids : list Z) (next : StreamRef) (m : t) : t :=
  match ids with
  | [] => m
  | i :: ids' => registerAll ids' (S next) (snd (registerStream i next m))
  end.

(** The smallest non-negative integer that is not in the list, as the
    specification words it. *)
Definition is_lowest_free (l : list Z) (n : Z) : Prop :=
  (0 <= n) ∧ (n ∉ l) ∧ (∀ k, 0 <= k < n → k ∈ l).

End StreamManager.

(** ** rtmpy.rtmp: the connection state machine of [BaseProtocol] *)

Module Connection.

(** An instance attribute either does not exist yet or holds a value. *)
Inductive attr (A : Type) : Type :=
| Unset
| Attr (a : A).
Arguments Unset {A}.
Arguments Attr {A} a.

(** [self.state]: one of the two class constants, or anything else that was
    assigned from outside (the [else] branch of [dataReceived]). *)
Inductive ProtoState : Type :=
| HANDSHAKE
| STREAM
| OtherState (s : string).

(** Calls the protocol makes on its collaborators (handshake negotiator,
    codec, transport, log), in the order they happen. *)
Inductive Effect : Type :=
| Log (msg : string) (arg : string)
| HandshakerDataReceived (data : string)
| DecoderDataReceived (data : string)
| DecoderPause
| EncoderPause
| ObserveCodec (which : string)
| EncoderRegisterConsumer
| TransportLoseConnection.

(** The module-level [DEBUG] flag. *)
Definition DEBUG : bool := false.

(** The negotiator and the codec objects are opaque collaborators; [decoder]
    and [encoder] hold [None] between [connectionMade] and
    [handshakeSuccess].  The transport is attached by the framework before
    any callback runs; what is done to it is recorded in [effects]. *)
Record t : Type := mk {
  debug : bool;
  state : attr ProtoState;
  handshaker : attr unit;
  decoder : attr (option unit);
  encoder : attr (option unit);
  registry : attr StreamManager.t;
  effects : list Effect
}.

(** [__init__] *)
Definition init : t :=
  {| debug := DEBUG; state := Unset; handshaker := Unset; decoder := Unset;
     encoder := Unset; registry := Unset; effects := [] |}.

(** A new instance whose [debug] attribute the application has set. *)
Definition instance (dbg : bool) : t :=
  {| debug := dbg; state := state init; handshaker := handshaker init;
     decoder := decoder init; encoder := encoder init;
     registry := registry init; effects := effects init |}.

Definition emit (e : Effect) (p : t) : t :=
  {| debug := debug p; state := state p; handshaker := handshaker p;
     decoder := decoder p; encoder := encoder p; registry := registry p;
     effects := effects p ++ [e] |}.

(** [if self.debug or DEBUG: log(self, msg)] *)
Definition debug_log (msg arg : string) (p : t) : t :=
  if debug p || DEBUG then emit (Log msg arg) p else p.

(** [connectionMade]; [build] is what the subclass's
    [buildHandshakeNegotiator] does ([BaseProtocol]'s own raises
    [NotImplementedError]). *)
Definition connectionMade (build : outcome unit) (p : t) : outcome unit * t :=
  let p := debug_log "Connection made" "" p in
  let p := {| debug := debug p; state := Attr HANDSHAKE;
              handshaker := handshaker p;
              decoder := Attr None; encoder := Attr None;
              registry := registry p; effects := effects p |} in
  match build with
  | Raised e => (Raised e, p)
  | Returned h =>
      (Returned tt,
       {| debug := debug p; state := state p; handshaker := Attr h;
          decoder := decoder p; encoder := encoder p;
          registry := registry p; effects := effects p |})
  end.

(** [self.handshaker.dataReceived(data)] *)
Definition decodeHandshake (data : string) (p : t) : outcome unit * t :=
  match handshaker p with
  | Unset => (Raised (AttributeError "BaseProtocol" "handshaker"), p)
  | Attr _ => (Returned tt, emit (HandshakerDataReceived data) p)
  end.

(** [self.decoder.dataReceived(data)] *)
Definition decodeStream (data : string) (p : t) : outcome unit * t :=
  match decoder p with
  | Unset => (Raised (AttributeError "BaseProtocol" "decoder"), p)
  | Attr None => (Raised (AttributeError "NoneType" "dataReceived"), p)
  | Attr (Some _) => (Returned tt, emit (DecoderDataReceived data) p)
  end.

Definition dataReceived (data : string) (p : t) : outcome unit * t :=
  match state p with
  | Unset => (Raised (AttributeError "BaseProtocol" "state"), p)
  | Attr STREAM => decodeStream data p
  | Attr HANDSHAKE => decodeHandshake data p
  | Attr (OtherState s) =>
      (Raised (RuntimeError "Unknown state %r" s),
       emit TransportLoseConnection p)
  end.

(** [self.streams = {}] and [self.activeStreams = []]; stream objects that
    were stamped before keep their [streamId] attribute. *)
Definition new_registry (p : t) : StreamManager.t :=
  {| StreamManager.streams := ∅;
     StreamManager.activeStreams := [];
     StreamManager.streamId_attr :=
       match registry p with
       | Attr r => StreamManager.streamId_attr r
       | Unset => ∅
       end |}.

Definition handshakeSuccess (p : t) : outcome unit * t :=
  let p := debug_log "Successful handshake" "" p in
  let p := {| debug := debug p; state := Attr STREAM;
              handshaker := handshaker p;
              decoder := Attr (Some tt); encoder := Attr (Some tt);
              registry := Attr (new_registry p);
              effects := effects p |} in
  let p := emit (ObserveCodec "decoder") p in
  let p := emit (ObserveCodec "encoder") p in
  let p := emit EncoderRegisterConsumer p in
  match handshaker p with
  | Unset => (Raised (AttributeError "BaseProtocol" "handshaker"), p)
  | Attr _ =>
      (Returned tt,
       {| debug := debug p; state := state p; handshaker := Unset;
          decoder := decoder p; encoder := encoder p;
          registry := registry p; effects := effects p |})
  end.

Definition handshakeFailure (reason : string) (p : t) : outcome unit * t :=
  let p := debug_log "Failed handshake (reason:%s)" reason p in
  (Returned tt, emit TransportLoseConnection p).

Definition connectionLost (reason : string) (p : t) : outcome unit * t :=
  let p := debug_log "Lost connection (reason:%s)" reason p in
  match decoder p with
  | Unset => (Raised (AttributeError "BaseProtocol" "decoder"), p)
  | Attr d =>
      let p := if d is Some _ then emit DecoderPause p else p in
      match encoder p with
      | Unset => (Raised (AttributeError "BaseProtocol" "encoder"), p)
      | Attr e =>
          (Returned tt, if e is Some _ then emit EncoderPause p else p)
      end
  end.

Definition set_registry (r : StreamManager.t) (p : t) : t :=
  {| debug := debug p; state := state p; handshaker := handshaker p;
     decoder := decoder p; encoder := encoder p; registry := Attr r;
     effects := effects p |}.

(** The stream methods as methods of the protocol: [self.streams] and
    [self.activeStreams] exist from [handshakeSuccess] on; the range test of
    [registerStream] comes before the first use of [self.streams]. *)
Definition registerStream (streamId : Z) (stream : StreamManager.StreamRef)
  (p : t) : outcome unit * t :=
  match registry p with
  | Unset =>
      if (streamId <? 0) || (streamId >? StreamManager.MAX_STREAMS) then
        (Raised (ValueError "streamId is not in range (got:%r)" streamId), p)
      else (Raised (AttributeError "BaseProtocol" "streams"), p)
  | Attr r =>
      let '(o, r) := StreamManager.registerStream streamId stream r in
      (o, set_registry r p)
  end.

Definition removeStream (streamId : Z) (p : t)
  : outcome StreamManager.StreamRef * t :=
  match registry p with
  | Unset => (Raised (AttributeError "BaseProtocol" "streams"), p)
  | Attr r =>
      let '(o, r) := StreamManager.removeStream streamId r in
      (o, set_registry r p)
  end.

Definition getNextAvailableStreamId (p : t) : outcome (option Z) * t :=
  match registry p with
  | Unset => (Raised (AttributeError "BaseProtocol" "activeStreams"), p)
  | Attr r =>
      let '(o, r) := StreamManager.getNextAvailableStreamId r in
      (Returned o, set_registry r p)
  end.

(** What can happen to a protocol instance: the framework's callbacks, the
    negotiator's two reports, and direct calls of the two decode methods. *)
Inductive Event : Type :=
| ConnectionMade (build : outcome unit)
| DataReceived (data : string)
| HandshakeSuccess
| HandshakeFailure (reason : string)
| ConnectionLost (reason : string)
| DecodeStream (data : string)
| DecodeHandshake (data : string).

Definition step (ev : Event) (p : t) : outcome unit * t :=
  match ev with
  | ConnectionMade build => connectionMade build p
  | DataReceived data => dataReceived data p
  | HandshakeSuccess => handshakeSuccess p
  | HandshakeFailure reason => handshakeFailure reason p
  | ConnectionLost reason => connectionLost reason p
  | DecodeStream data => decodeStream data p
  | DecodeHandshake data => decodeHandshake data p
  end.

(** A run of events; an exception ends the call that raised it, the instance
    stays as that call left it. *)
Definition run (evs : list Event) (p : t) : t :=
  foldl (λ p ev, snd (step ev p)) p evs.

Definition is_HandshakeSuccess (ev : Event) : bool :=
  match ev with HandshakeSuccess => true | _ => false end.

Definition is_ConnectionMade (ev : Event) : bool :=
  match ev with ConnectionMade _ => true | _ => false end.

Definition is_stream_processing (e : Effect) : bool :=
  match e with DecoderDataReceived _ => true | _ => false end.

Definition is_handshake_processing (e : Effect) : bool :=
  match e with HandshakerDataReceived _ => true | _ => false end.

(** No decoder has been installed: stream data cannot be processed. *)
Definition before_handshake (p : t) : Prop :=
  (decoder p = Unset ∨ decoder p = Attr None)
  ∧ Forall (λ e, is_stream_processing e = false) (effects p).

(** The streaming phase: the negotiator is gone. *)
Definition streaming (p : t) : Prop :=
  state p = Attr STREAM ∧ handshaker p = Unset.

(** [q] continues [p]: the effects of [p], then effects that satisfy [ok]. *)
Definition extends (ok : Effect → bool) (p q : t) : Prop :=
  ∃ new, effects q = effects p ++ new ∧ Forall (λ e, ok e = true) new.

End Connection.

(** ** rtmpy.rpc: the call registry, [BaseCallHandler] *)

Module Rpc.

(** [NO_RESULT], [RESPONSE_RESULT], [RESPONSE_ERROR] *)
Definition NO_RESULT : Z := 0.
Definition RESPONSE_RESULT : string := "_result".
Definition RESPONSE_ERROR : string := "_error".

(** The Python values that travel through the registry.  A Deferred is an
    object held by reference: [VDeferred d] is the [d]-th Deferred created. *)
#[local] Set Warnings "-register-all".
Inductive Value : Type :=
| VNone
| VInt (n : Z)
| VStr (s : string)
| VTuple (items : list Value)
| VDeferred (d : nat).

(** [self._lastCallId], [self._activeCalls]; a context is the [args] tuple
    given to [initiateCall]. *)
Record Handler : Type := mkHandler {
  _lastCallId : Z;
  _activeCalls : gmap Z (list Value)
}.

(** [__init__] *)
Definition new_handler : Handler :=
  {| _lastCallId := 0; _activeCalls := ∅ |}.

Definition isCallActive (callId : Z) (h : Handler) : bool :=
  bool_decide (is_Some (_activeCalls h !! callId)).

Definition getNextCallId (h : Handler) : Z := _lastCallId h + 1.

Definition getCallContext (callId : Z) (h : Handler) : option (list Value) :=
  _activeCalls h !! callId.

(** [initiateCall] with its positional [args] and the [callId] keyword;
    [callId = None] is the keyword left out (or passed as [None]). *)
Definition initiateCall (args : list Value) (callId : option Z) (h : Handler)
  : outcome Z * Handler :=
  match callId with
  | None =>
      let callId := getNextCallId h in
      (Returned callId,
       {| _lastCallId := callId;
          _activeCalls := <[callId := args]> (_activeCalls h) |})
  | Some callId =>
      if isCallActive callId h then
        (Raised
           (CallFailed "Unable to initiate an already active call %r" callId),
         h)
      else
        (Returned callId,
         {| _lastCallId := _lastCallId h;
            _activeCalls := <[callId := args]> (_activeCalls h) |})
  end.

(** [self._activeCalls.pop(callId, None)] *)
Definition finishCall (callId : Z) (h : Handler)
  : option (list Value) * Handler :=
  (_activeCalls h !! callId,
   {| _lastCallId := _lastCallId h;
      _activeCalls := delete callId (_activeCalls h) |}).

Definition discardCall (callId : Z) (h : Handler)
  : option (list Value) * Handler :=
  (_activeCalls h !! callId,
   {| _lastCallId := _lastCallId h;
      _activeCalls := delete callId (_activeCalls h) |}).

(** Operations on one registry, for statements about sequences of them. *)
Inductive Op : Type :=
| InitiateCall (args : list Value) (callId : option Z)
| FinishCall (callId : Z)
| DiscardCall (callId : Z).

Definition apply_op (op : Op) (h : Handler) : Handler :=
  match op with
  | InitiateCall args callId => snd (initiateCall args callId h)
  | FinishCall callId => snd (finishCall callId h)
  | DiscardCall callId => snd (discardCall callId h)
  end.

Definition run_ops (ops : list Op) (h : Handler) : Handler :=
  foldl (λ h op, apply_op op h) h ops.

(** An operation that names no id of its own. *)
Definition allocates (op : Op) : bool :=
  match op with InitiateCall _ (Some _) => false | _ => true end.

(** The calls in flight after a run of operations, by the class's own
    wording: "An active call has been initiated but not yet finished."
    Every [initiateCall] that returns adds the call (the id it returned and
    the context it was given); [finishCall] and [discardCall] end the calls
    of the id they name. *)
Definition track (op : Op) (h : Handler) (live : list (Z * list Value))
  : list (Z * list Value) :=
  match op with
  | InitiateCall args callId =>
      match fst (initiateCall args callId h) with
      | Returned id => live ++ [(id, args)]
      | Raised _ => live
      end
  | FinishCall id | DiscardCall id => filter (λ c, c.1 ≠ id) live
  end.

Fixpoint in_flight (ops : list Op) (h : Handler) (live : list (Z * list Value))
  : list (Z * list Value) :=
  match ops with
  | [] => live
  | op :: ops' => in_flight ops' (apply_op op h) (track op h live)
  end.

(** ** rtmpy.rpc: [AbstractCallInitiator] *)

(** [twisted.internet.defer.Deferred], as far as this module drives it: a
    Deferred is pending until [callback] or [errback] is called on it once;
    [RemoteCallFailed(result)] is the failure that wraps the peer's payload. *)
Inductive Failure : Type :=
| RemoteCallFailed (payload : Value).

Inductive DeferredState : Type :=
| Pending
| Fulfilled (result : Value)
| Rejected (f : Failure).

(** [message.Invoke(name, callId, command, *args)] *)
Record Invoke : Type := mkInvoke {
  inv_name : string;
  inv_id : Z;
  inv_command : Value;
  inv_argv : list Value
}.

(** Everything an initiator's methods can touch: the handler itself, the
    Deferreds created so far, the log, and the messages a subclass's
    [sendMessage] has put on the wire. *)
Record World : Type := mkWorld {
  handler : Handler;
  deferreds : list DeferredState;
  logged : list (string * list Value);
  sent : list Invoke
}.

Definition new_world : World :=
  {| handler := new_handler; deferreds := []; logged := []; sent := [] |}.

Definition set_handler (h : Handler) (w : World) : World :=
  {| handler := h; deferreds := deferreds w; logged := logged w;
     sent := sent w |}.

Definition set_deferreds (ds : list DeferredState) (w : World) : World :=
  {| handler := handler w; deferreds := ds; logged := logged w;
     sent := sent w |}.

(** [log.msg(fmt % args)] *)
Definition log_msg (fmt : string) (args : list Value) (w : World) : World :=
  {| handler := handler w; deferreds := deferreds w;
     logged := logged w ++ [(fmt, args)]; sent := sent w |}.

(** [d = defer.Deferred()] *)
Definition new_Deferred (w : World) : nat * World :=
  (length (deferreds w), set_deferreds (deferreds w ++ [Pending]) w).

(** [d.callback(result)] and [d.errback(fail)] on whatever value [d] is. *)
Definition fire (d : Value) (s : DeferredState) (w : World)
  : outcome unit * World :=
  match d with
  | VDeferred n =>
      match deferreds w !! n with
      | Some Pending => (Returned tt, set_deferreds (<[n := s]> (deferreds w)) w)
      | Some _ => (Raised AlreadyCalledError, w)
      | None => (Raised (AttributeError "object" "callback"), w)
      end
  | _ => (Raised (AttributeError "object" "callback"), w)
  end.

Definition callback (d : Value) (result : Value) (w : World)
  : outcome unit * World :=
  fire d (Fulfilled result) w.

Definition errback (d : Value) (f : Failure) (w : World)
  : outcome unit * World :=
  fire d (Rejected f) w.

Definition is_not_None (v : Value) : bool :=
  match v with VNone => false | _ => true end.

Section Initiator.

(** [sendMessage] must be implemented by subclasses; it is free to do to
    the world whatever it likes, and to raise. *)
Variable sendMessage : Invoke → World → outcome unit * World.

(** [call(name, *args, command=None)] *)
Definition call (name : string) (args : list Value) (command : Value)
  (w : World) : outcome unit * World :=
  sendMessage (mkInvoke name NO_RESULT command args) w.

(** [callWithResult(name, *args, command=None)]; returns the Deferred. *)
Definition callWithResult (name : string) (args : list Value)
  (command : Value) (w : World) : outcome Value * World :=
  let '(d, w) := new_Deferred w in
  let '(r, h) :=
    initiateCall [VDeferred d; VStr name; VTuple args; command] None
      (handler w) in
  let w := set_handler h w in
  match r with
  | Raised e => (Raised e, w)
  | Returned callId =>
      let m := mkInvoke name callId command args in
      match sendMessage m w with
      | (Raised e, w) =>
          let '(_, h) := discardCall callId (handler w) in
          (Raised e, set_handler h w)
      | (Returned _, w) => (Returned (VDeferred d), w)
      end
  end.

End Initiator.

(** [handleResponse(name, callId, result, command=None)] *)
Definition handleResponse (name : string) (callId : Z) (result : Value)
  (command : Value) (w : World) : outcome unit * World :=
  let '(callContext, h) := finishCall callId (handler w) in
  let w := set_handler h w in
  match callContext with
  | None =>
      if callId =? NO_RESULT then
        let w :=
          log_msg
            "Attempted to handle an RPC response when one was not expected."
            [] w in
        (Returned tt,
         log_msg "Response context was %r%r" [VStr name; result] w)
      else
        (Returned tt,
         log_msg "Unknown RPC callId %r for %r with result %r"
           [VInt callId; VStr name; result] w)
  | Some [d; originalName; originalArgs; originalCommand] =>
      let w :=
        if is_not_None command then
          let w :=
            log_msg "Received command of %r with result %r"
              [command; result] w in
          log_msg "In response to %r%r" [originalName; originalArgs] w
        else w in
      if bool_decide (name = RESPONSE_RESULT) then callback d result w
      else if bool_decide (name = RESPONSE_ERROR) then
        errback d (RemoteCallFailed result) w
      else
        let w := log_msg "Unknown response type %r" [VStr name] w in
        let w := log_msg "Result = %r" [result] w in
        (Returned tt,
         log_msg "Original call was %r%r with command %r"
           [originalName; originalArgs; originalCommand] w)
  | Some ctx =>
      (Raised (ValueError "wrong number of values to unpack"
                 (Z.of_nat (length ctx))), w)
  end.

(** [AbstractCallInitiator.sendMessage] itself. *)
Definition sendMessage_abstract (m : Invoke) (w : World)
  : outcome unit * World :=
  (Raised NotImplementedError, w).

(** A subclass whose [sendMessage] writes the message out. *)
Definition sendMessage_wire (m : Invoke) (w : World) : outcome unit * World :=
  (Returned tt,
   {| handler := handler w; deferreds := deferreds w; logged := logged w;
      sent := sent w ++ [m] |}).

End Rpc.

(** ** rtmpy.rpc: exposed methods *)

Module Exposed.

(** A [dict] object is held by reference: the same dict can be reached from
    a class namespace and from a caller that was handed it. *)
Definition DictRef : Type := nat.

(** What [getExposedMethods] reads from and writes to a class object:
    [inspect.getmro(cls)] (the class itself first, then its bases in method
    resolution order) and the two slots of [cls.__dict__]. *)
Record PyClass : Type := mkClass {
  cls_mro : list string;
  cls_exposed : option DictRef;
  cls_exposed_mro : option DictRef
}.

Record Heap : Type := mkHeap {
  classes : gmap string PyClass;
  dicts : list (gmap string string)
}.

Definition empty_heap : Heap := {| classes := ∅; dicts := [] |}.

(** [class name(bases): ...] with an empty body; [mro] is the linearisation
    the interpreter computes for it. *)
Definition define_class (name : string) (mro : list string) (h : Heap) : Heap :=
  {| classes :=
       <[name := {| cls_mro := mro; cls_exposed := None;
                    cls_exposed_mro := None |}]> (classes h);
     dicts := dicts h |}.

(** [add_meta(locals, exposed_name, func_name)] inside [expose], run in the
    body of class [cls]:
    [methods = locals.setdefault('__exposed__', {})];
    [methods[exposed_name] = func_name or exposed_name]. *)
Definition add_meta (cls : string) (exposed_name : string)
  (func_name : option string) (h : Heap) : Heap :=
  let target :=
    match func_name with
    | Some f => if bool_decide (f = "") then exposed_name else f
    | None => exposed_name
    end in
  match classes h !! cls with
  | None => h
  | Some c =>
      match cls_exposed c with
      | Some methods =>
          {| classes := classes h;
             dicts := alter (insert exposed_name target) methods (dicts h) |}
      | None =>
          let methods := length (dicts h) in
          {| classes :=
               <[cls := {| cls_mro := cls_mro c;
                           cls_exposed := Some methods;
                           cls_exposed_mro := cls_exposed_mro c |}]>
                 (classes h);
             dicts := dicts h ++ [{[exposed_name := target]}] |}
      end
  end.

(** [i.__dict__.get('__exposed__', None)]; a class the heap does not
    describe (such as [object]) has no such slot. *)
Definition exposed_of (i : string) (h : Heap) : option DictRef :=
  classes h !! i ≫= cls_exposed.

(** [ret.update(methods)]: every key of [methods] is written into [ret]. *)
Definition dict_update (ret methods : DictRef) (ds : list (gmap string string))
  : list (gmap string string) :=
  match ds !! methods with
  | Some m => alter (λ r, m ∪ r) ret ds
  | None => ds
  end.

(** The body of [for i in inspect.getmro(cls)]. *)
Definition visit (ret : DictRef) (ds : list (gmap string string)) (i : string)
  (h : Heap) : list (gmap string string) :=
  match exposed_of i h with
  | Some methods => dict_update ret methods ds
  | None => ds
  end.

(** [getExposedMethods(cls)]: the dict it returns and the heap afterwards;
    [None] when [cls] is not a class of the heap. *)
Definition getExposedMethods (cls : string) (h : Heap)
  : option (DictRef * Heap) :=
  c ← classes h !! cls;
  match cls_exposed_mro c with
  | Some methods => Some (methods, h)
  | None =>
      let ret := length (dicts h) in
      let ds := foldl (λ ds i, visit ret ds i h) (dicts h ++ [∅]) (cls_mro c) in
      Some (ret,
            {| classes :=
                 <[cls := {| cls_mro := cls_mro c;
                             cls_exposed := cls_exposed c;
                             cls_exposed_mro := Some ret |}]> (classes h);
               dicts := ds |})
  end.

(** The mapping a resolution hands back, read through the reference. *)
Definition resolve (cls : string) (h : Heap) : option (gmap string string) :=
  '(ret, h') ← getExposedMethods cls h;
  dicts h' !! ret.

(** The contents of the [__exposed__] dict of class [i], if it has one. *)
Definition declared (i : string) (h : Heap) : option (gmap string string) :=
  exposed_of i h ≫= (λ methods, dicts h !! methods).

(** One turn of the loop, on the contents of [ret]. *)
Definition merge_step (h : Heap) (ret : gmap string string) (i : string)
  : gmap string string :=
  match declared i h with
  | Some m => m ∪ ret
  | None => ret
  end.

(** [class Base(object)] exposing [foo] as [base_foo], and
    [class Derived(Base)] exposing [foo] again, as [derived_foo]. *)
Definition base_and_derived : Heap :=
  add_meta "Derived" "foo" (Some "derived_foo")
    (define_class "Derived" ["Derived"; "Base"; "object"]
       (add_meta "Base" "foo" (Some "base_foo")
          (define_class "Base" ["Base"; "object"] empty_heap))).

End Exposed.

(** ** rtmpy.rtmp: runs of stream operations and [ServerProtocol.createStream] *)

Module StreamOps.
Import StreamManager.

(** The calls an application makes on the stream registry. *)
Inductive Op : Type :=
| Register (streamId : Z) (stream : StreamRef)
| Remove (streamId : Z)
| NextId.

Definition apply (op : Op) (m : t) : t :=
  match op with
  | Register streamId stream => snd (registerStream streamId stream m)
  | Remove streamId => snd (removeStream streamId m)
  | NextId => snd (getNextAvailableStreamId m)
  end.

Definition run (ops : list Op) (m : t) : t :=
  foldl (λ m op, apply op m) m ops.

(** Every id that has a stream is in the active list, and every active id is
    an id [registerStream] accepts. *)
Definition consistent (m : t) : Prop :=
  (∀ streamId, is_Some (streams m !! streamId) → streamId ∈ activeStreams m)
  ∧ Forall (λ streamId, 0 <= streamId <= MAX_STREAMS) (activeStreams m).

(** How [createStream] ends: with the new id, with an exception of
    [registerStream], or with the [ValueError] that [registerStream] raises
    when it is handed [None] (in Python 2, [None < 0] holds). *)
Inductive Created : Type :=
| NewStream (streamId : Z)
| CreateRaised (e : PyExc)
| NotInRange_None.

(** [createStream]: [streamId = self.getNextAvailableStreamId()],
    [self.registerStream(streamId, stream.Stream(self))],
    [return None, streamId]; [stream] is the new [Stream] object. *)
Definition createStream (stream : StreamRef) (m : t) : Created * t :=
  let '(streamId, m) := getNextAvailableStreamId m in
  match streamId with
  | None => (NotInRange_None, m)
  | Some i =>
      match registerStream i stream m with
      | (Returned _, m) => (NewStream i, m)
      | (Raised e, m) => (CreateRaised e, m)
      end
  end.

End StreamOps.

(** ** rtmpy.rpc: [callExposedMethod] *)

Module Dispatch.
Import Exposed.




(** No class of the list exposes [name]. *)
Definition unexposed (name : string) (mro : list string) (h : Heap) : Prop :=
  Forall (λ i, ∀ m, declared i h = Some m → m !! name = None) mro.

End Dispatch.

(** ** rtmpy.rtmp: what holds along a run of connection events *)

Module ConnectionRuns.
Import Connection.

(** [self.state] is missing or one of the two class constants. *)
Definition known_state (p : t) : Prop :=
  state p = Unset ∨ state p = Attr HANDSHAKE ∨ state p = Attr STREAM.

(** The handshake phase as [connectionMade] sets it up. *)
Definition negotiating (p : t) : Prop :=
  state p = Attr HANDSHAKE ∧ handshaker p = Attr tt.

(** Between [connectionMade] and [handshakeSuccess] both codec attributes
    hold [None]. *)
Definition codecs_absent (p : t) : Prop :=
  decoder p = Attr None ∧ encoder p = Attr None.

(** From [handshakeSuccess] on both codec objects are in place. *)
Definition codecs_installed (p : t) : Prop :=
  state p = Attr STREAM
  ∧ decoder p = Attr (Some tt) ∧ encoder p = Attr (Some tt).

(** The [if self.debug or DEBUG: log(...)] line of a callback. *)
Definition debug_line (msg arg : string) (p : t) : list Effect :=
  if debug p || DEBUG then [Log msg arg] else [].

End ConnectionRuns.

(** * Properties *)

(** ** The stream registry *)

Section StreamRegistry.
Import StreamManager.

Lemma list_remove_first_occurrences x l l' :
  list_remove_first x l = Some l' →
  occurrences x l = S (occurrences x l').
Proof.
  revert l'. induction l as [|y l IH]; intros l' H; simpl in *; [done|].
  case_bool_decide.
  - by simplify_eq.
  - destruct (list_remove_first x l) as [l0|] eqn:E; simplify_eq/=.
    rewrite bool_decide_eq_false_2; [|done]. by rewrite (IH l0).
Qed.

Lemma list_remove_first_other x y l l' :
  list_remove_first x l = Some l' → y ≠ x →
  occurrences y l = occurrences y l'.
Proof.
  revert l'. induction l as [|z l IH]; intros l' H Hne; simpl in *; [done|].
  case_bool_decide.
  - simplify_eq. by rewrite bool_decide_eq_false_2.
  - destruct (list_remove_first x l) as [l0|] eqn:E; simplify_eq/=.
    by rewrite (IH l0).
Qed.

Lemma list_remove_first_elem_of x l :
  x ∈ l → is_Some (list_remove_first x l).
Proof.
  induction l as [|y l IH]; intros Hin; [by apply elem_of_nil in Hin|].
  simpl. case_bool_decide; [by eexists|].
  apply elem_of_cons in Hin as [->|Hin]; [done|].
  destruct (IH Hin) as [l0 ->]. by eexists.
Qed.

Lemma occurrences_app x l1 l2 :
  occurrences x (l1 ++ l2) = (occurrences x l1 + occurrences x l2)%nat.
Proof. induction l1 as [|y l1 IH]; simpl; [done|]. rewrite IH. lia. Qed.

(** The loop never leaves early: position and counter advance together. *)
Lemma scan_enumerate_from l k :
  scan (enumerate_from k l) k = k + Z.of_nat (length l).
Proof.
  revert k. induction l as [|x l IH]; intros k; simpl.
  - lia.
  - rewrite Z.eqb_refl. simpl. rewrite IH. lia.
Qed.

Lemma getNextAvailableStreamId_full m :
  Z.of_nat (length (activeStreams m)) = MAX_STREAMS →
  getNextAvailableStreamId m = (None, m).
Proof.
  intros H. unfold getNextAvailableStreamId.
  by rewrite (proj2 (Z.eqb_eq _ _) H).
Qed.

(** Away from the capacity test the result is the length of the list. *)
Lemma getNextAvailableStreamId_count m :
  Z.of_nat (length (activeStreams m)) ≠ MAX_STREAMS →
  fst (getNextAvailableStreamId m)
  = Some (Z.of_nat (length (activeStreams m))).
Proof.
  intros H. unfold getNextAvailableStreamId.
  rewrite (proj2 (Z.eqb_neq _ _) H). simpl.
  rewrite scan_enumerate_from.
  by rewrite (Permutation_length (merge_sort_Permutation Z.le _)).
Qed.

(** The in-place sort leaves a sorted rearrangement of the same ids. *)
Lemma getNextAvailableStreamId_sorts m :
  Z.of_nat (length (activeStreams m)) ≠ MAX_STREAMS →
  let m' := snd (getNextAvailableStreamId m) in
  Sorted Z.le (activeStreams m') ∧ activeStreams m' ≡ₚ activeStreams m
  ∧ streams m' = streams m.
Proof.
  intros H. unfold getNextAvailableStreamId.
  rewrite (proj2 (Z.eqb_neq _ _) H). simpl.
  split_and!; [apply (Sorted_merge_sort Z.le)|apply merge_sort_Permutation|done].
Qed.

Lemma registerStream_in_range streamId stream m :
  0 <= streamId <= MAX_STREAMS →
  registerStream streamId stream m
  = (Returned tt,
     {| streams := <[streamId := stream]> (streams m);
        activeStreams := activeStreams m ++ [streamId];
        streamId_attr := <[stream := streamId]> (streamId_attr m) |}).
Proof.
  intros H. unfold registerStream.
  destruct (streamId <? 0) eqn:E1; [lia|].
  destruct (streamId >? MAX_STREAMS) eqn:E2; [lia|done].
Qed.

Lemma activeStreams_registerAll ids next m :
  Forall (λ i, 0 <= i <= MAX_STREAMS) ids →
  activeStreams (registerAll ids next m) = activeStreams m ++ ids.
Proof.
  revert next m. induction ids as [|i ids IH]; intros next m Hall.
  - by rewrite app_nil_r.
  - apply Forall_cons in Hall as [Hi Hall]. cbn [registerAll].
    rewrite IH; [|done]. rewrite registerStream_in_range; [|done].
    simpl. by rewrite <- app_assoc.
Qed.

Lemma seqZ_in_range n :
  n <= MAX_STREAMS + 1 →
  Forall (λ i, 0 <= i <= MAX_STREAMS) (seqZ 0 n).
Proof. intros H. apply Forall_seqZ. intros j Hj. lia. Qed.

Lemma count_registerAll_seqZ n :
  0 <= n <= MAX_STREAMS + 1 →
  Z.of_nat (length (activeStreams (registerAll (seqZ 0 n) 0%nat fresh))) = n.
Proof.
  intros H. rewrite activeStreams_registerAll; [|by apply seqZ_in_range; lia].
  cbn [fresh activeStreams app]. rewrite length_seqZ. lia.
Qed.

(** C1: on the registry made by registering ids 0 and 2,
    [getNextAvailableStreamId] returns 2, an id that is active, while the
    smallest non-negative id that is not active is 1; on the empty registry
    it returns 0 and after registering 0, 1, 2 it returns 3. *)
Theorem getNextAvailableStreamId_skips_gap :
  let m := registerAll [0; 2] 0%nat fresh in
  fst (getNextAvailableStreamId m) = Some 2
  ∧ 2 ∈ activeStreams m
  ∧ is_lowest_free (activeStreams m) 1
  ∧ fst (getNextAvailableStreamId fresh) = Some 0
  ∧ fst (getNextAvailableStreamId (registerAll [0; 1; 2] 0%nat fresh)) = Some 3.
Proof.
  cbn zeta. split_and!.
  - rewrite getNextAvailableStreamId_count; by vm_compute.
  - rewrite activeStreams_registerAll;
      [|repeat constructor; unfold MAX_STREAMS; lia].
    simpl. rewrite !elem_of_cons. lia.
  - rewrite activeStreams_registerAll;
      [|repeat constructor; unfold MAX_STREAMS; lia].
    simpl. split_and!; [lia| |].
    + rewrite !elem_of_cons, elem_of_nil. lia.
    + intros k Hk. rewrite !elem_of_cons. lia.
  - rewrite getNextAvailableStreamId_count; by vm_compute.
  - rewrite getNextAvailableStreamId_count; by vm_compute.
Qed.

(** C4, as stated, fails: with 65535 ids registered (fewer than 65536) the
    result is the no-capacity signal, and with 65536 ids registered the
    result is the integer 65536. *)
Lemma no_capacity_is_at_65535_not_65536 :
  let full := registerAll (seqZ 0 65535) 0%nat fresh in
  let over := registerAll (seqZ 0 65536) 0%nat fresh in
  (Z.of_nat (length (activeStreams full)) = 65535
   ∧ fst (getNextAvailableStreamId full) = None)
  ∧ (Z.of_nat (length (activeStreams over)) = 65536
     ∧ fst (getNextAvailableStreamId over) = Some 65536).
Proof.
  cbn zeta.
  pose proof (count_registerAll_seqZ 65535) as Hfull.
  pose proof (count_registerAll_seqZ 65536) as Hover.
  unfold MAX_STREAMS in Hfull, Hover.
  specialize (Hfull ltac:(lia)). specialize (Hover ltac:(lia)).
  split; split; try assumption.
  - by rewrite getNextAvailableStreamId_full.
  - rewrite getNextAvailableStreamId_count; rewrite Hover;
      [done|unfold MAX_STREAMS; lia].
Qed.

(** C4 (amended): [getNextAvailableStreamId] returns the no-capacity signal
    when exactly [MAX_STREAMS] = 65535 ids are in the active list, and an
    integer stream id whenever fewer than 65535 are. *)
Theorem getNextAvailableStreamId_capacity m :
  (Z.of_nat (length (activeStreams m)) = 65535 →
   fst (getNextAvailableStreamId m) = None)
  ∧ (Z.of_nat (length (activeStreams m)) < 65535 →
     ∃ n : Z, fst (getNextAvailableStreamId m) = Some n).
Proof.
  split; intros H.
  - by rewrite getNextAvailableStreamId_full.
  - eexists. apply getNextAvailableStreamId_count. unfold MAX_STREAMS. lia.
Qed.

Lemma getNextAvailableStreamId_capacity_witness :
  fst (getNextAvailableStreamId (registerAll (seqZ 0 65535) 0%nat fresh)) = None
  ∧ ∃ n : Z, fst (getNextAvailableStreamId (registerAll [0; 2] 0%nat fresh))
             = Some n.
Proof.
  split.
  - apply (getNextAvailableStreamId_capacity
             (registerAll (seqZ 0 65535) 0%nat fresh)).
    apply (count_registerAll_seqZ 65535). unfold MAX_STREAMS. lia.
  - apply (getNextAvailableStreamId_capacity (registerAll [0; 2] 0%nat fresh)).
    vm_compute. reflexivity.
Defined.

(** [removeStream] takes exactly one occurrence of the id out of the active
    list and leaves the other ids as they are. *)
Lemma removeStream_one_occurrence streamId s m :
  streams m !! streamId = Some s → streamId ∈ activeStreams m →
  let r := removeStream streamId m in
  fst r = Returned s
  ∧ S (occurrences streamId (activeStreams (snd r)))
    = occurrences streamId (activeStreams m)
  ∧ ∀ other, other ≠ streamId →
      occurrences other (activeStreams (snd r))
      = occurrences other (activeStreams m).
Proof.
  intros Hs Hin. cbn zeta. unfold removeStream. rewrite Hs.
  destruct (list_remove_first_elem_of _ _ Hin) as [l Hl]. rewrite Hl. simpl.
  split_and!; [done|by rewrite (list_remove_first_occurrences _ _ _ Hl)|].
  intros other Hne. by rewrite (list_remove_first_other _ _ _ _ Hl Hne).
Qed.

(** C10: [registerStream] raises its range error exactly when the id is
    below 0 or above [MAX_STREAMS]; for an id in range it always succeeds,
    whether or not the id is registered already: the stream stored under the
    id is replaced and the id is appended once more to the active list, and
    a [removeStream] that follows takes out one occurrence only, so the
    occurrences that were there before stay behind. *)
Theorem registerStream_range_and_duplicates streamId stream m :
  (fst (registerStream streamId stream m)
   = Raised (ValueError "streamId is not in range (got:%r)" streamId)
   ↔ streamId < 0 ∨ streamId > MAX_STREAMS)
  ∧ (is_Raised (fst (registerStream streamId stream m)) = true
     ↔ streamId < 0 ∨ streamId > MAX_STREAMS)
  ∧ (0 <= streamId <= MAX_STREAMS →
     let m' := snd (registerStream streamId stream m) in
     fst (registerStream streamId stream m) = Returned tt
     ∧ streams m' !! streamId = Some stream
     ∧ activeStreams m' = activeStreams m ++ [streamId]
     ∧ occurrences streamId (activeStreams m')
       = S (occurrences streamId (activeStreams m))
     ∧ fst (removeStream streamId m') = Returned stream
     ∧ occurrences streamId (activeStreams (snd (removeStream streamId m')))
       = occurrences streamId (activeStreams m)
     ∧ streams (snd (removeStream streamId m')) !! streamId = None).
Proof.
  split_and!.
  - unfold registerStream.
    destruct (streamId <? 0) eqn:E1; destruct (streamId >? MAX_STREAMS) eqn:E2;
      simpl; split; intros H; try done; try lia.
  - unfold registerStream.
    destruct (streamId <? 0) eqn:E1; destruct (streamId >? MAX_STREAMS) eqn:E2;
      simpl; split; intros H; try done; try lia.
  - intros Hr. rewrite registerStream_in_range; [|done]. cbn zeta. simpl.
    assert (Hocc : occurrences streamId (activeStreams m ++ [streamId])
                   = S (occurrences streamId (activeStreams m))).
    { rewrite occurrences_app. simpl.
      rewrite bool_decide_eq_true_2; [lia|done]. }
    split_and!; [done|by rewrite lookup_insert_eq|done|done|..].
    all: unfold removeStream; simpl; rewrite lookup_insert_eq;
      destruct (list_remove_first_elem_of streamId
                  (activeStreams m ++ [streamId])) as [l Hl];
      [rewrite elem_of_app, list_elem_of_singleton; by right|];
      rewrite Hl; simpl.
    + done.
    + apply list_remove_first_occurrences in Hl. lia.
    + by rewrite lookup_delete_eq.
Qed.

Lemma registerStream_range_and_duplicates_witness :
  let m := snd (registerStream 5 0%nat fresh) in
  let m' := snd (registerStream 5 1%nat m) in
  activeStreams m' = [5; 5]
  ∧ streams m' !! 5 = Some 1%nat
  ∧ fst (removeStream 5 m') = Returned 1%nat
  ∧ occurrences 5 (activeStreams (snd (removeStream 5 m'))) = 1%nat
  ∧ streams (snd (removeStream 5 m')) !! 5 = None.
Proof.
  cbn zeta.
  destruct (registerStream_range_and_duplicates 5 1%nat
              (snd (registerStream 5 0%nat fresh)))
    as (_ & _ & H).
  destruct (H ltac:(unfold MAX_STREAMS; lia)) as (_ & H1 & H2 & _ & H3 & H4 & H5).
  split_and!; [exact H2|exact H1|exact H3|exact H4|exact H5].
Defined.

End StreamRegistry.

(** ** The connection state machine *)

Section ConnectionStateMachine.
Import Connection.

Local Ltac crunch :=
  unfold step, connectionMade, dataReceived, decodeStream, decodeHandshake,
    handshakeSuccess, handshakeFailure, connectionLost, debug_log, emit in *;
  simpl in *;
  repeat (case_match; simpl in *; simplify_eq);
  simpl in *.

Lemma before_handshake_instance dbg : before_handshake (instance dbg).
Proof. split; [by left|constructor]. Qed.

Lemma before_handshake_step ev p :
  is_HandshakeSuccess ev = false →
  before_handshake p → before_handshake (snd (step ev p)).
Proof.
  intros Hev [Hdec Heff]. destruct p as [dbg st hs dec enc reg eff].
  unfold before_handshake in *. simpl in *.
  destruct ev; try done; crunch;
    (split; [by (destruct Hdec; simplify_eq; auto)|]);
    repeat (apply Forall_app; split); auto;
    repeat constructor; by (destruct Hdec; simplify_eq).
Qed.

Lemma before_handshake_run evs p :
  forallb (λ ev, negb (is_HandshakeSuccess ev)) evs = true →
  before_handshake p → before_handshake (run evs p).
Proof.
  revert p. induction evs as [|ev evs IH]; intros p Hevs Hp; [done|].
  simpl in Hevs. apply andb_true_iff in Hevs as [Hev Hevs].
  apply IH; [done|]. apply before_handshake_step; [|done].
  by apply negb_true_iff.
Qed.

Lemma decodeStream_before_handshake data p :
  before_handshake p →
  is_Raised (fst (decodeStream data p)) = true ∧ snd (decodeStream data p) = p.
Proof. intros [[H|H] _]; unfold decodeStream; by rewrite H. Qed.

(** [handshakeSuccess] installs an empty stream registry; on a new
    connection that is [StreamManager.fresh]. *)
Lemma handshakeSuccess_installs_registry p :
  ∃ r, registry (snd (handshakeSuccess p)) = Attr r
       ∧ StreamManager.streams r = ∅ ∧ StreamManager.activeStreams r = [].
Proof.
  destruct p as [dbg st hs dec enc reg eff].
  unfold handshakeSuccess, new_registry, debug_log, emit. simpl.
  destruct (dbg || DEBUG), hs; simpl; by eexists.
Qed.

Lemma handshakeSuccess_first_registry dbg build :
  registry (run [ConnectionMade build; HandshakeSuccess] (instance dbg))
  = Attr StreamManager.fresh.
Proof. destruct dbg, build as [[]|e]; reflexivity. Qed.

Lemma streaming_after_handshakeSuccess p :
  streaming (snd (handshakeSuccess p)).
Proof. destruct p as [dbg st hs dec enc reg eff]. split; by crunch. Qed.

Lemma streaming_step ev p :
  is_ConnectionMade ev = false →
  streaming p →
  streaming (snd (step ev p))
  ∧ extends (λ e, negb (is_handshake_processing e)) p (snd (step ev p)).
Proof.
  intros Hev [Hst Hhs]. destruct p as [dbg st hs dec enc reg eff].
  unfold streaming, extends in *. simpl in *. subst st hs.
  destruct ev; try done; crunch; (split; [done|]);
    try (by exists []; rewrite app_nil_r);
    try (by eexists [_]; split; [reflexivity|repeat constructor]);
    try (by eexists [_; _]; split;
         [rewrite <- ?app_assoc; reflexivity|repeat constructor]);
    try (by eexists [_; _; _]; split;
         [rewrite <- ?app_assoc; reflexivity|repeat constructor]);
    try (by eexists [_; _; _; _]; split;
         [rewrite <- ?app_assoc; reflexivity|repeat constructor]).
Qed.

Lemma streaming_run evs p :
  forallb (λ ev, negb (is_ConnectionMade ev)) evs = true →
  streaming p →
  streaming (run evs p)
  ∧ extends (λ e, negb (is_handshake_processing e)) p (run evs p).
Proof.
  revert p. induction evs as [|ev evs IH]; intros p Hevs Hp.
  - split; [done|]. exists []. by rewrite app_nil_r.
  - simpl in Hevs. apply andb_true_iff in Hevs as [Hev Hevs].
    apply negb_true_iff in Hev.
    destruct (streaming_step ev p Hev Hp) as [Hs (new1 & E1 & F1)].
    destruct (IH _ Hevs Hs) as [Hs' (new2 & E2 & F2)].
    split; [done|]. exists (new1 ++ new2). split.
    + change (run (ev :: evs) p) with (run evs (snd (step ev p))).
      rewrite E2, E1. by rewrite app_assoc.
    + by apply Forall_app.
Qed.

Lemma run_app evs1 evs2 p : run (evs1 ++ evs2) p = run evs2 (run evs1 p).
Proof. apply foldl_app. Qed.

(** C8: (1) as long as no handshake success has been reported, a call of
    [decodeStream] raises and nothing has been given to the decoder;
    (2) once [handshakeSuccess] has run, nothing that follows on the
    connection hands data to the negotiator ([connectionMade], which the
    framework calls once when the connection is set up, not being run
    again): [dataReceived] is [decodeStream], and [decodeHandshake] itself
    raises;
    (3) [handshakeFailure] always returns after telling the transport to
    drop the connection, gives nothing to the decoder and leaves the state
    as it was; by (1) nothing is given to the decoder afterwards either,
    as long as no handshake success is reported. *)
Theorem connection_phases :
  (∀ dbg evs data,
     forallb (λ ev, negb (is_HandshakeSuccess ev)) evs = true →
     let p := run evs (instance dbg) in
     is_Raised (fst (decodeStream data p)) = true
     ∧ Forall (λ e, is_stream_processing e = false) (effects p))
  ∧ (∀ dbg evs1 evs2,
       forallb (λ ev, negb (is_ConnectionMade ev)) evs2 = true →
       let p := run (evs1 ++ [HandshakeSuccess]) (instance dbg) in
       let q := run evs2 p in
       state q = Attr STREAM
       ∧ extends (λ e, negb (is_handshake_processing e)) p q
       ∧ (∀ data, dataReceived data q = decodeStream data q)
       ∧ (∀ data, is_Raised (fst (decodeHandshake data q)) = true))
  ∧ (∀ reason p,
       let q := snd (handshakeFailure reason p) in
       fst (handshakeFailure reason p) = Returned tt
       ∧ state q = state p
       ∧ decoder q = decoder p
       ∧ ∃ new, effects q = effects p ++ new
                ∧ TransportLoseConnection ∈ new
                ∧ Forall (λ e, is_stream_processing e = false) new).
Proof.
  split_and!.
  - intros dbg evs data Hevs p.
    pose proof (before_handshake_run evs _ Hevs (before_handshake_instance dbg))
      as Hp.
    split; [by apply decodeStream_before_handshake|apply Hp].
  - intros dbg evs1 evs2 Hevs p q. subst p q. rewrite run_app.
    set (p0 := run evs1 (instance dbg)).
    change (run [HandshakeSuccess] p0) with (snd (handshakeSuccess p0)).
    destruct (streaming_run evs2 _ Hevs (streaming_after_handshakeSuccess p0))
      as [[Hst Hhs] Hext].
    split_and!; [done|done|..].
    + intros data. unfold dataReceived. by rewrite Hst.
    + intros data. unfold decodeHandshake. by rewrite Hhs.
  - intros reason p q. subst q. destruct p as [dbg st hs dec enc reg eff].
    unfold handshakeFailure, debug_log, emit. simpl.
    destruct (dbg || DEBUG); simpl; split_and!; try done.
    + eexists [_; _]. rewrite <- app_assoc.
      split_and!; [done|rewrite !elem_of_cons; auto|by repeat constructor].
    + eexists [_].
      split_and!; [done|rewrite !elem_of_cons; auto|by repeat constructor].
Qed.

Lemma connection_phases_witness :
  (let p := run [ConnectionMade (Returned tt); DataReceived "c0c1";
                 HandshakeFailure "bad digest"; DataReceived "late"]
              (instance false) in
   is_Raised (fst (decodeStream "chunk" p)) = true
   ∧ Forall (λ e, is_stream_processing e = false) (effects p))
  ∧ (let p := run ([ConnectionMade (Returned tt); DataReceived "c0c1"]
                   ++ [HandshakeSuccess]) (instance false) in
     let q := run [DataReceived "chunk"; ConnectionLost "eof"] p in
     state q = Attr STREAM
     ∧ extends (λ e, negb (is_handshake_processing e)) p q).
Proof.
  destruct connection_phases as (H1 & H2 & _). split.
  - apply (H1 false _ "chunk"). reflexivity.
  - destruct (H2 false [ConnectionMade (Returned tt); DataReceived "c0c1"]
                [DataReceived "chunk"; ConnectionLost "eof"] eq_refl)
      as (Ha & Hb & _).
    split; [exact Ha|exact Hb].
Defined.

End ConnectionStateMachine.

(** ** The call registry *)

Section CallRegistry.
Import Rpc.

Lemma isCallActive_true callId h :
  isCallActive callId h = true ↔ is_Some (getCallContext callId h).
Proof. unfold isCallActive, getCallContext. apply bool_decide_eq_true. Qed.

Lemma isCallActive_false callId h :
  isCallActive callId h = false ↔ getCallContext callId h = None.
Proof.
  unfold isCallActive, getCallContext.
  rewrite bool_decide_eq_false. by rewrite eq_None_not_Some.
Qed.

Lemma finishCall_inactive callId h :
  isCallActive callId (snd (finishCall callId h)) = false.
Proof. apply isCallActive_false. apply lookup_delete_eq. Qed.

Lemma discardCall_inactive callId h :
  isCallActive callId (snd (discardCall callId h)) = false.
Proof. apply isCallActive_false. apply lookup_delete_eq. Qed.

(** The counter never goes down. *)
Lemma lastCallId_mono ops h : _lastCallId h <= _lastCallId (run_ops ops h).
Proof.
  revert h. induction ops as [|op ops IH]; intros h; [done|].
  change (run_ops (op :: ops) h) with (run_ops ops (apply_op op h)).
  etrans; [|apply IH].
  destruct op as [args [callId|]|callId|callId]; simpl;
    unfold initiateCall, getNextCallId; try case_match; simpl; lia.
Qed.

(** While every active id is at most the counter, an allocated id is new. *)
Lemma initiateCall_allocates_inactive h :
  (∀ callId, isCallActive callId h = true → callId <= _lastCallId h) →
  isCallActive (getNextCallId h) h = false.
Proof.
  intros Hinv. destruct (isCallActive (getNextCallId h) h) eqn:E; [|done].
  apply Hinv in E. unfold getNextCallId in E. lia.
Qed.

(** C7: with [callId] left out, [initiateCall] returns counter + 1, makes
    that the counter and stores the context under it; with an explicit
    [callId] that is active it raises [CallFailed] and changes nothing; with
    an explicit [callId] that is not active it stores the context under that
    id, returns it and leaves the counter alone.  Other ids keep their
    context in every case. *)
Theorem initiateCall_spec args h :
  (let r := initiateCall args None h in
   fst r = Returned (_lastCallId h + 1)
   ∧ _lastCallId (snd r) = _lastCallId h + 1
   ∧ getCallContext (_lastCallId h + 1) (snd r) = Some args
   ∧ ∀ other, other ≠ _lastCallId h + 1 →
       getCallContext other (snd r) = getCallContext other h)
  ∧ (∀ callId,
       isCallActive callId h = true →
       initiateCall args (Some callId) h
       = (Raised
            (CallFailed "Unable to initiate an already active call %r" callId),
          h))
  ∧ (∀ callId,
       isCallActive callId h = false →
       let r := initiateCall args (Some callId) h in
       fst r = Returned callId
       ∧ _lastCallId (snd r) = _lastCallId h
       ∧ getCallContext callId (snd r) = Some args
       ∧ ∀ other, other ≠ callId →
           getCallContext other (snd r) = getCallContext other h).
Proof.
  split_and!.
  - cbn zeta. unfold initiateCall, getNextCallId, getCallContext. simpl.
    split_and!; [done|done|by rewrite lookup_insert_eq|].
    intros other Hne. by rewrite lookup_insert_ne.
  - intros callId Hact. unfold initiateCall. by rewrite Hact.
  - intros callId Hact. cbn zeta. unfold initiateCall. rewrite Hact.
    unfold getCallContext. simpl.
    split_and!; [done|done|by rewrite lookup_insert_eq|].
    intros other Hne. by rewrite lookup_insert_ne.
Qed.

Lemma initiateCall_spec_witness :
  let h := snd (initiateCall [VStr "first"] (Some 7) new_handler) in
  initiateCall [VStr "again"] (Some 7) h
  = (Raised (CallFailed "Unable to initiate an already active call %r" 7), h)
  ∧ fst (initiateCall [VStr "other"] (Some 8) h) = Returned 8
  ∧ getCallContext 8 (snd (initiateCall [VStr "other"] (Some 8) h))
    = Some [VStr "other"].
Proof.
  cbn zeta.
  set (h := snd (initiateCall [VStr "first"] (Some 7) new_handler)).
  destruct (initiateCall_spec [VStr "again"] h) as (_ & Hact & _).
  destruct (initiateCall_spec [VStr "other"] h) as (_ & _ & Hnew).
  split.
  - apply (Hact 7). vm_compute. reflexivity.
  - destruct (Hnew 8) as (H1 & _ & H2 & _); [vm_compute; reflexivity|].
    split; [exact H1|exact H2].
Defined.

(** C3: on a new registry, [initiateCall] with the explicit id 1 followed by
    [initiateCall] without an id gives both calls the id 1: the second is
    started while the first is still active, and takes its place in the
    registry, with no [finishCall] or [discardCall] in between.  Two calls
    are in flight under one id. *)
Theorem initiateCall_allocates_an_active_id :
  let ops := [InitiateCall [VStr "first"] (Some 1);
              InitiateCall [VStr "second"] None] in
  let first := initiateCall [VStr "first"] (Some 1) new_handler in
  let second := initiateCall [VStr "second"] None (snd first) in
  fst first = Returned 1
  ∧ isCallActive 1 (snd first) = true
  ∧ getCallContext 1 (snd first) = Some [VStr "first"]
  ∧ fst second = Returned 1
  ∧ getCallContext 1 (snd second) = Some [VStr "second"]
  ∧ snd second = run_ops ops new_handler
  ∧ in_flight ops new_handler [] = [(1, [VStr "first"]); (1, [VStr "second"])].
Proof. cbn zeta. split_and!; by vm_compute. Qed.

(** Where the registry is only ever given ids it allocated itself, no id is
    handed out while it is active. *)
Lemma ids_below_counter_step op h :
  allocates op = true →
  (∀ callId, isCallActive callId h = true → callId <= _lastCallId h) →
  ∀ callId, isCallActive callId (apply_op op h) = true →
            callId <= _lastCallId (apply_op op h).
Proof.
  intros Hop Hinv callId.
  destruct op as [args [explicit|]|finished|discarded]; try done; simpl;
    rewrite !isCallActive_true; unfold getCallContext, getNextCallId; simpl.
  - destruct (decide (callId = _lastCallId h + 1)) as [->|Hne]; [lia|].
    rewrite lookup_insert_ne; [|done]. intros H.
    apply isCallActive_true, Hinv in H. lia.
  - destruct (decide (callId = finished)) as [->|Hne].
    + rewrite lookup_delete_eq. by intros [? ?].
    + rewrite lookup_delete_ne; [|done]. intros H.
      by apply isCallActive_true, Hinv in H.
  - destruct (decide (callId = discarded)) as [->|Hne].
    + rewrite lookup_delete_eq. by intros [? ?].
    + rewrite lookup_delete_ne; [|done]. intros H.
      by apply isCallActive_true, Hinv in H.
Qed.

Lemma ids_below_counter_run ops h :
  forallb allocates ops = true →
  (∀ callId, isCallActive callId h = true → callId <= _lastCallId h) →
  ∀ callId, isCallActive callId (run_ops ops h) = true →
            callId <= _lastCallId (run_ops ops h).
Proof.
  revert h. induction ops as [|op ops IH]; intros h Hops Hinv; [done|].
  simpl in Hops. apply andb_true_iff in Hops as [Hop Hops].
  change (run_ops (op :: ops) h) with (run_ops ops (apply_op op h)).
  apply IH; [done|]. by apply ids_below_counter_step.
Qed.

Lemma new_handler_ids_below_counter callId :
  isCallActive callId new_handler = true → callId <= _lastCallId new_handler.
Proof.
  intros H. apply isCallActive_true in H as [? H].
  unfold getCallContext in H. simpl in H. by rewrite lookup_empty in H.
Qed.

Lemma allocated_ids_not_active ops args :
  forallb allocates ops = true →
  let h := run_ops ops new_handler in
  ∃ callId, fst (initiateCall args None h) = Returned callId
            ∧ isCallActive callId h = false.
Proof.
  intros Hops h. exists (getNextCallId h). split; [done|].
  apply initiateCall_allocates_inactive. subst h.
  apply ids_below_counter_run; [done|]. apply new_handler_ids_below_counter.
Qed.

Lemma NoDup_filter_ids (id : Z) (live : list (Z * list Value)) :
  NoDup live.*1 → NoDup (filter (λ c, c.1 ≠ id) live).*1.
Proof.
  induction live as [|[i c] live IH]; intros Hnd; [done|].
  apply NoDup_cons in Hnd as [Hni Hnd]. rewrite filter_cons.
  case_decide; [|by apply IH]. cbn [fmap list_fmap fst].
  apply NoDup_cons. split; [|by apply IH].
  intros Hin. apply Hni.
  apply list_elem_of_fmap in Hin as [[i' c'] [-> Hin]].
  apply list_elem_of_filter in Hin as [_ Hin].
  apply list_elem_of_fmap. by exists (i', c').
Qed.

Lemma Forall_filter_ids (P : Z → Prop) (id : Z) (live : list (Z * list Value)) :
  Forall P live.*1 → Forall P (filter (λ c, c.1 ≠ id) live).*1.
Proof.
  induction live as [|[i c] live IH]; intros Hall; [done|].
  apply Forall_cons in Hall as [Hi Hall]. rewrite filter_cons.
  case_decide; [|by apply IH]. apply Forall_cons. split; [done|by apply IH].
Qed.

(** ... and the calls in flight all have different ids. *)
Lemma in_flight_allocated ops h live :
  forallb allocates ops = true →
  NoDup live.*1 → Forall (λ id, id <= _lastCallId h) live.*1 →
  NoDup (in_flight ops h live).*1.
Proof.
  revert h live. induction ops as [|op ops IH]; intros h live Hops Hnd Hle;
    [done|].
  simpl in Hops. apply andb_true_iff in Hops as [Hop Hops].
  cbn [in_flight].
  destruct op as [args [explicit|]|finished|discarded]; try done.
  - apply IH; [done|..]; cbn [track apply_op initiateCall fst snd _lastCallId].
    + rewrite fmap_app. apply NoDup_app.
      split_and!; [done| |by apply NoDup_singleton].
      intros id Hin Hid. apply list_elem_of_singleton in Hid.
      rewrite Forall_forall in Hle. apply Hle in Hin.
      unfold getNextCallId in Hid. cbn [fst] in Hid. lia.
    + rewrite fmap_app. apply Forall_app. split.
      * eapply Forall_impl; [exact Hle|]. unfold getNextCallId. simpl. lia.
      * by repeat constructor.
  - apply IH; [done|by apply NoDup_filter_ids|by apply Forall_filter_ids].
  - apply IH; [done|by apply NoDup_filter_ids|by apply Forall_filter_ids].
Qed.

End CallRegistry.

(** ** The call initiator *)

Section CallInitiator.
Import Rpc.





(** C6: when the [sendMessage] inside [callWithResult] raises, the same
    exception comes out of [callWithResult], and the id that was allocated
    for the call (it was active when [sendMessage] was entered) is not
    active in the state the caller gets back. *)
Theorem callWithResult_send_failure sendMessage name args command w e w_sent :
  let d := length (deferreds w) in
  let callId := getNextCallId (handler w) in
  let w_call :=
    set_handler
      (snd (initiateCall [VDeferred d; VStr name; VTuple args; command] None
              (handler (snd (new_Deferred w)))))
      (snd (new_Deferred w)) in
  sendMessage (mkInvoke name callId command args) w_call = (Raised e, w_sent) →
  isCallActive callId (handler w_call) = true
  ∧ callWithResult sendMessage name args command w
    = (Raised e, set_handler (snd (discardCall callId (handler w_sent))) w_sent)
  ∧ isCallActive callId
      (handler (snd (callWithResult sendMessage name args command w))) = false.
Proof.
  cbn zeta. intros Hsend.
  assert (Hcall : callWithResult sendMessage name args command w
    = (Raised e,
       set_handler
         (snd (discardCall (getNextCallId (handler w)) (handler w_sent)))
         w_sent)).
  { unfold callWithResult, new_Deferred, initiateCall in *. simpl in *.
    by rewrite Hsend. }
  split_and!.
  - apply isCallActive_true. unfold getCallContext. simpl.
    rewrite lookup_insert_eq. by eexists.
  - exact Hcall.
  - rewrite Hcall. simpl. apply discardCall_inactive.
Qed.

Lemma callWithResult_send_failure_witness :
  fst (callWithResult sendMessage_abstract "add" [VInt 2; VInt 3] VNone
         new_world)
  = Raised NotImplementedError
  ∧ isCallActive 1
      (handler
         (snd (callWithResult sendMessage_abstract "add" [VInt 2; VInt 3]
                 VNone new_world))) = false.
Proof.
  edestruct (callWithResult_send_failure sendMessage_abstract "add"
               [VInt 2; VInt 3] VNone new_world) as (_ & H1 & H2).
  - reflexivity.
  - split; [exact (f_equal fst H1)|exact H2].
Defined.

Lemma handleResponse_unknown_id name callId result command w :
  getCallContext callId (handler w) = None →
  fst (handleResponse name callId result command w) = Returned tt
  ∧ deferreds (snd (handleResponse name callId result command w))
    = deferreds w
  ∧ ∀ other, getCallContext other
               (handler (snd (handleResponse name callId result command w)))
             = getCallContext other (handler w).
Proof.
  unfold getCallContext. intros H. unfold handleResponse, finishCall.
  rewrite H. cbn [fst snd].
  assert (Hdel : ∀ other : Z,
            delete callId (_activeCalls (handler w)) !! other
            = _activeCalls (handler w) !! other).
  { intros other. by rewrite delete_id. }
  destruct (callId =? NO_RESULT); simpl; split_and!; done.
Qed.

(** C9: whatever the response name, [handleResponse] for an id that is
    active leaves that id not active (the context is taken out by
    [finishCall] first).  When the name is neither the result tag nor the
    error tag and the context has the four parts [callWithResult] stores,
    the call returns normally and no Deferred changes state; and since the
    id is no longer known, later responses for it do not touch a Deferred
    either. *)
Theorem handleResponse_unknown_tag name callId result command w ctx :
  getCallContext callId (handler w) = Some ctx →
  let w' := snd (handleResponse name callId result command w) in
  isCallActive callId (handler w') = false
  ∧ (name ≠ RESPONSE_RESULT → name ≠ RESPONSE_ERROR →
     ∀ d originalName originalArgs originalCommand,
       ctx = [d; originalName; originalArgs; originalCommand] →
       fst (handleResponse name callId result command w) = Returned tt
       ∧ deferreds w' = deferreds w
       ∧ ∀ name' result' command',
           deferreds (snd (handleResponse name' callId result' command' w'))
           = deferreds w').
Proof.
  unfold getCallContext. intros Hctx. cbn zeta.
  assert (Hgone : isCallActive callId
            (handler (snd (handleResponse name callId result command w)))
          = false).
  { apply isCallActive_false. unfold getCallContext.
    unfold handleResponse, finishCall. rewrite Hctx. cbn [fst snd].
    destruct ctx as [|d [|n [|a [|c [|x ctx]]]]]; simpl;
      try apply lookup_delete_eq.
    unfold callback, errback, fire.
    repeat (case_match; simpl); apply lookup_delete_eq. }
  split; [exact Hgone|].
  intros Hres Herr d n a c ->.
  assert (Hrun : fst (handleResponse name callId result command w)
                 = Returned tt
                 ∧ deferreds (snd (handleResponse name callId result command w))
                   = deferreds w).
  { unfold handleResponse, finishCall. rewrite Hctx. cbn [fst snd].
    rewrite !bool_decide_eq_false_2; [|done..].
    by destruct (is_not_None command). }
  destruct Hrun as [Hr Hd]. split_and!; [done|done|].
  intros name' result' command'.
  apply handleResponse_unknown_id. by apply isCallActive_false.
Qed.

Lemma handleResponse_unknown_tag_witness :
  let w := snd (callWithResult sendMessage_wire "add" [VInt 2; VInt 3] VNone
                  new_world) in
  let r := handleResponse "onStatus" 1 (VInt 5) VNone w in
  isCallActive 1 (handler w) = true
  ∧ isCallActive 1 (handler (snd r)) = false
  ∧ fst r = Returned tt
  ∧ deferreds (snd r) !! 0%nat = Some Pending.
Proof.
  cbn zeta.
  edestruct (handleResponse_unknown_tag "onStatus" 1 (VInt 5) VNone
               (snd (callWithResult sendMessage_wire "add" [VInt 2; VInt 3]
                       VNone new_world))) as (H1 & H2).
  - vm_compute. reflexivity.
  - edestruct H2 as (H3 & H4 & _);
      [by intros [=]|by intros [=]|reflexivity|].
    split_and!; [by vm_compute|exact H1|exact H3|by rewrite H4].
Defined.

End CallInitiator.

(** ** Exposed methods *)

Section ExposedMethods.
Import Exposed.

Lemma visit_fresh h r i :
  visit (length (dicts h)) (dicts h ++ [r]) i h
  = dicts h ++ [merge_step h r i].
Proof.
  unfold visit, merge_step, declared, dict_update.
  destruct (exposed_of i h) as [methods|]; simpl; [|done].
  unfold DictRef in *.
  destruct (decide (methods < length (dicts h))%nat) as [Hlt|Hge].
  - rewrite lookup_app_l; [|done].
    destruct (dicts h !! methods) as [m|]; simpl; [|done].
    rewrite <- (Nat.add_0_r (length (dicts h))) at 1.
    by rewrite alter_app_r.
  - rewrite (lookup_ge_None_2 (dicts h)); [|lia].
    destruct (decide (methods = length (dicts h))) as [->|Hne].
    + rewrite lookup_app_r; [|done]. rewrite Nat.sub_diag. simpl.
      rewrite <- (Nat.add_0_r (length (dicts h))) at 1.
      rewrite alter_app_r. simpl. by rewrite (idemp_L (∪) r).
    + rewrite lookup_ge_None_2; [done|]. rewrite length_app. simpl. lia.
Qed.

Lemma visit_all_fresh h r mro :
  foldl (λ ds i, visit (length (dicts h)) ds i h) (dicts h ++ [r]) mro
  = dicts h ++ [foldl (merge_step h) r mro].
Proof.
  revert r. induction mro as [|i mro IH]; intros r; [done|].
  simpl. by rewrite visit_fresh, IH.
Qed.

(** A first resolution merges the declarations along the MRO, the class
    itself first and its bases after it. *)
Lemma resolve_uncached cls c h :
  classes h !! cls = Some c → cls_exposed_mro c = None →
  resolve cls h = Some (foldl (merge_step h) ∅ (cls_mro c)).
Proof.
  intros Hc Hno. unfold resolve, getExposedMethods. rewrite Hc. simpl.
  rewrite Hno. simpl. rewrite visit_all_fresh.
  rewrite lookup_app_r; [|done]. by rewrite Nat.sub_diag.
Qed.

Lemma merge_step_keeps h k v mro acc :
  acc !! k = Some v →
  Forall (λ i, ∀ m, declared i h = Some m → m !! k = None) mro →
  foldl (merge_step h) acc mro !! k = Some v.
Proof.
  revert acc. induction mro as [|i mro IH]; intros acc Hk Hall; [done|].
  apply Forall_cons in Hall as [Hi Hall]. simpl. apply IH; [|done].
  unfold merge_step. destruct (declared i h) as [m|] eqn:E; [|done].
  rewrite lookup_union_r; [done|]. by apply Hi.
Qed.

(** Along the MRO a later class overwrites what an earlier one wrote: the
    declaration of the last class that has the name is the one resolved,
    whatever the classes before it (the more derived ones) declare. *)
Lemma resolve_last_declaration cls c h before base after m k v :
  classes h !! cls = Some c → cls_exposed_mro c = None →
  cls_mro c = before ++ base :: after →
  declared base h = Some m → m !! k = Some v →
  Forall (λ i, ∀ m', declared i h = Some m' → m' !! k = None) after →
  resolve cls h ≫= (.!! k) = Some v.
Proof.
  intros Hc Hno Hmro Hb Hk Hafter.
  rewrite (resolve_uncached cls c); [|done..]. simpl.
  rewrite Hmro, foldl_app. simpl.
  apply merge_step_keeps; [|done].
  unfold merge_step at 1. rewrite Hb. by apply lookup_union_Some_l.
Qed.

(** Once resolved, the dict is kept in [__exposed_mro__]: asking again gives
    the same dict object and changes nothing. *)
Lemma getExposedMethods_cached cls h ret h' :
  getExposedMethods cls h = Some (ret, h') →
  getExposedMethods cls h' = Some (ret, h').
Proof.
  unfold getExposedMethods. intros H.
  destruct (classes h !! cls) as [c|] eqn:Hc; simpl in H; [|done].
  destruct (cls_exposed_mro c) as [methods|] eqn:Hm; simplify_eq.
  - by rewrite Hc; simpl; rewrite Hm.
  - simpl. by rewrite lookup_insert_eq.
Qed.

(** C2: for [class Derived(Base)] where both classes expose the name [foo],
    [Base] as [base_foo] and [Derived] as [derived_foo], the table resolved
    for [Derived] maps [foo] to [base_foo], the declaration of the base
    class; the resolved dict is stored on the class, and a second resolution
    returns that same dict without changing anything. *)
Theorem getExposedMethods_base_overrides_derived :
  (classes base_and_derived !! "Derived") ≫= (λ c, Some (cls_mro c))
  = Some ["Derived"; "Base"; "object"]
  ∧ declared "Derived" base_and_derived ≫= (.!! "foo") = Some "derived_foo"
  ∧ declared "Base" base_and_derived ≫= (.!! "foo") = Some "base_foo"
  ∧ resolve "Derived" base_and_derived ≫= (.!! "foo") = Some "base_foo"
  ∧ ∃ ret h',
      getExposedMethods "Derived" base_and_derived = Some (ret, h')
      ∧ getExposedMethods "Derived" h' = Some (ret, h').
Proof.
  split_and!; try by vm_compute.
  destruct (getExposedMethods "Derived" base_and_derived) as [[ret h']|] eqn:E;
    [|by vm_compute in E].
  exists ret, h'. split; [done|]. exact (getExposedMethods_cached _ _ _ _ E).
Qed.

End ExposedMethods.

(** ** More on the stream registry *)

Section StreamRegistryRuns.
Import StreamManager StreamOps.

Lemma list_remove_first_fresh x l :
  x ∉ l → list_remove_first x (l ++ [x]) = Some l.
Proof.
  induction l as [|y l IH]; intros Hx; simpl.
  - by rewrite bool_decide_eq_true_2.
  - apply not_elem_of_cons in Hx as [Hne Hx].
    rewrite bool_decide_eq_false_2; [|done]. by rewrite IH.
Qed.

Lemma list_remove_first_keeps x y l l' :
  list_remove_first x l = Some l' → y ≠ x → y ∈ l → y ∈ l'.
Proof.
  revert l'. induction l as [|z l IH]; intros l' H Hne Hin; simpl in H; [done|].
  case_bool_decide.
  - simplify_eq. apply elem_of_cons in Hin as [->|Hin]; done.
  - destruct (list_remove_first x l) as [l0|] eqn:E; simplify_eq/=.
    apply elem_of_cons in Hin as [->|Hin]; [by left|].
    right. by apply IH.
Qed.

Lemma list_remove_first_Forall (P : Z → Prop) x l l' :
  list_remove_first x l = Some l' → Forall P l → Forall P l'.
Proof.
  revert l'. induction l as [|z l IH]; intros l' H Hall; simpl in H; [done|].
  apply Forall_cons in Hall as [Hz Hall]. case_bool_decide.
  - by simplify_eq.
  - destruct (list_remove_first x l) as [l0|] eqn:E; simplify_eq/=.
    apply Forall_cons. split; [done|by apply IH].
Qed.

Lemma consistent_fresh : consistent fresh.
Proof.
  split; [|constructor]. intros streamId [s Hs].
  simpl in Hs. by rewrite lookup_empty in Hs.
Qed.

Lemma consistent_apply op m : consistent m → consistent (apply op m).
Proof.
  intros [Hkeys Hrange]. destruct op as [streamId stream|streamId|]; simpl.
  - unfold registerStream.
    destruct ((streamId <? 0) || (streamId >? MAX_STREAMS)) eqn:E;
      [by split|].
    apply orb_false_iff in E as [E1 E2]. split; simpl.
    + intros other Hother. apply elem_of_app.
      apply lookup_insert_is_Some in Hother as [->|[_ Hother]].
      * right. by apply list_elem_of_singleton.
      * left. by apply Hkeys.
    + apply Forall_app. split; [done|]. repeat constructor; lia.
  - unfold removeStream. destruct (streams m !! streamId) as [s|] eqn:Hs;
      [|by split].
    destruct (list_remove_first streamId (activeStreams m)) as [l|] eqn:Hl;
      split; simpl.
    + intros other Hother.
      apply lookup_delete_is_Some in Hother as [Hne Hother].
      eapply list_remove_first_keeps; [exact Hl|done|by apply Hkeys].
    + by eapply list_remove_first_Forall.
    + intros other Hother.
      apply lookup_delete_is_Some in Hother as [Hne Hother]. by apply Hkeys.
    + done.
  - unfold getNextAvailableStreamId.
    destruct (Z.of_nat (length (activeStreams m)) =? MAX_STREAMS);
      [by split|].
    split; simpl.
    + intros other Hother. rewrite merge_sort_Permutation. by apply Hkeys.
    + by rewrite merge_sort_Permutation.
Qed.

Lemma consistent_run ops m : consistent m → consistent (run ops m).
Proof.
  revert m. induction ops as [|op ops IH]; intros m Hm; [done|].
  apply (IH (apply op m)). by apply consistent_apply.
Qed.

(** X1: whatever has been registered, removed and asked for on a registry
    that started empty, every id with a stream is in the active list and
    every active id is within 0..[MAX_STREAMS]; so [removeStream] either
    returns the stream stored under the id or raises its own [IndexError]
    for an unknown id, and [list.remove] never fails inside it. *)
Theorem removeStream_on_reachable_registry ops streamId :
  let m := run ops fresh in
  consistent m
  ∧ match fst (removeStream streamId m) with
    | Returned s =>
        streams m !! streamId = Some s
        ∧ streams (snd (removeStream streamId m)) !! streamId = None
    | Raised e =>
        e = IndexError "Unknown streamId %r" streamId
        ∧ streams m !! streamId = None
        ∧ snd (removeStream streamId m) = m
    end.
Proof.
  cbn zeta. pose proof (consistent_run ops fresh consistent_fresh) as Hc.
  split; [done|]. destruct Hc as [Hkeys _]. unfold removeStream.
  destruct (streams (run ops fresh) !! streamId) as [s|] eqn:Hs; [|done].
  destruct (list_remove_first_elem_of streamId (activeStreams (run ops fresh)))
    as [l Hl]; [by apply Hkeys|].
  rewrite Hl. simpl. split; [done|apply lookup_delete_eq].
Qed.

(** X2: a stream registered under an id in range is what [getStream]
    returns for that id, the stream object carries the id, and the streams
    of other ids are as before; once the id is removed again [getStream]
    raises [KeyError] for it. *)
Theorem registerStream_getStream streamId stream m :
  0 <= streamId <= MAX_STREAMS →
  let m' := snd (registerStream streamId stream m) in
  getStream streamId m' = Returned stream
  ∧ streamId_attr m' !! stream = Some streamId
  ∧ (∀ other, other ≠ streamId → getStream other m' = getStream other m)
  ∧ getStream streamId (snd (removeStream streamId m'))
    = Raised (KeyError streamId).
Proof.
  intros Hr. cbn zeta. rewrite registerStream_in_range; [|done].
  unfold getStream, removeStream. simpl. rewrite !lookup_insert_eq.
  split_and!; [done|done| |].
  - intros other Hne. by rewrite lookup_insert_ne.
  - destruct (list_remove_first streamId (activeStreams m ++ [streamId]));
      simpl; by rewrite lookup_delete_eq.
Qed.

Lemma registerStream_getStream_witness :
  let m' := snd (registerStream 3 7%nat fresh) in
  getStream 3 m' = Returned 7%nat
  ∧ getStream 3 (snd (removeStream 3 m')) = Raised (KeyError 3).
Proof.
  cbn zeta.
  destruct (registerStream_getStream 3 7%nat fresh) as (H1 & _ & _ & H2).
  - unfold MAX_STREAMS. lia.
  - split; [exact H1|exact H2].
Defined.

(** X3: registering an id that is in range and not yet known, and then
    removing it, gives back the stream that was registered and leaves the
    stream table and the active list exactly as they were before. *)
Theorem registerStream_removeStream streamId stream m :
  0 <= streamId <= MAX_STREAMS →
  streams m !! streamId = None → streamId ∉ activeStreams m →
  let r := removeStream streamId (snd (registerStream streamId stream m)) in
  fst r = Returned stream
  ∧ streams (snd r) = streams m
  ∧ activeStreams (snd r) = activeStreams m.
Proof.
  intros Hr Hnone Hnotin. cbn zeta. rewrite registerStream_in_range; [|done].
  unfold removeStream. simpl. rewrite lookup_insert_eq.
  rewrite list_remove_first_fresh; [|done]. simpl.
  split_and!; [done| |done]. by apply delete_insert_id.
Qed.

Lemma registerStream_removeStream_witness :
  let m := snd (registerStream 0 0%nat fresh) in
  let r := removeStream 4 (snd (registerStream 4 1%nat m)) in
  fst r = Returned 1%nat
  ∧ streams (snd r) = streams m
  ∧ activeStreams (snd r) = activeStreams m.
Proof.
  cbn zeta.
  apply (registerStream_removeStream 4 1%nat (snd (registerStream 0 0%nat fresh))).
  - unfold MAX_STREAMS. lia.
  - vm_compute. reflexivity.
  - simpl. rewrite elem_of_cons, elem_of_nil. lia.
Defined.

(** X4: [getNextAvailableStreamId] only reorders the active list: the
    stream table is untouched, the active list holds the same ids as
    before, and asking again gives the same answer. *)
Theorem getNextAvailableStreamId_is_a_query m :
  let r := getNextAvailableStreamId m in
  streams (snd r) = streams m
  ∧ streamId_attr (snd r) = streamId_attr m
  ∧ activeStreams (snd r) ≡ₚ activeStreams m
  ∧ (∀ streamId, getStream streamId (snd r) = getStream streamId m)
  ∧ fst (getNextAvailableStreamId (snd r)) = fst r.
Proof.
  cbn zeta.
  destruct (decide (Z.of_nat (length (activeStreams m)) = MAX_STREAMS))
    as [E|E].
  - rewrite getNextAvailableStreamId_full; [|done]. simpl.
    split_and!; try done. by rewrite getNextAvailableStreamId_full.
  - assert (Hsnd : snd (getNextAvailableStreamId m)
                   = {| streams := streams m;
                        activeStreams := merge_sort Z.le (activeStreams m);
                        streamId_attr := streamId_attr m |}).
    { unfold getNextAvailableStreamId.
      by rewrite (proj2 (Z.eqb_neq _ _) E). }
    assert (Hperm : activeStreams (snd (getNextAvailableStreamId m))
                    ≡ₚ activeStreams m).
    { rewrite Hsnd. apply merge_sort_Permutation. }
    split_and!.
    + by rewrite Hsnd.
    + by rewrite Hsnd.
    + exact Hperm.
    + intros streamId. unfold getStream. by rewrite Hsnd.
    + rewrite !getNextAvailableStreamId_count.
      * by rewrite (Permutation_length Hperm).
      * done.
      * by rewrite (Permutation_length Hperm).
Qed.

Lemma createStream_below_capacity stream m :
  Z.of_nat (length (activeStreams m)) < MAX_STREAMS →
  createStream stream m
  = (NewStream (Z.of_nat (length (activeStreams m))),
     {| streams :=
          <[Z.of_nat (length (activeStreams m)) := stream]> (streams m);
        activeStreams :=
          merge_sort Z.le (activeStreams m)
          ++ [Z.of_nat (length (activeStreams m))];
        streamId_attr :=
          <[stream := Z.of_nat (length (activeStreams m))]>
            (streamId_attr m) |}).
Proof.
  intros H. unfold createStream, getNextAvailableStreamId.
  rewrite (proj2 (Z.eqb_neq _ _)); [|lia].
  rewrite scan_enumerate_from,
    (Permutation_length (merge_sort_Permutation Z.le _)), Z.add_0_l.
  rewrite registerStream_in_range; [done|]. simpl. lia.
Qed.

(** X5: [createStream] at capacity ([MAX_STREAMS] ids in the active list)
    hands [None] to [registerStream], which raises its range error, and the
    registry stays as it was; below capacity it registers the new stream
    under the number of active ids and returns that number. *)
Theorem createStream_capacity stream m :
  (Z.of_nat (length (activeStreams m)) = MAX_STREAMS →
   createStream stream m = (NotInRange_None, m))
  ∧ (Z.of_nat (length (activeStreams m)) < MAX_STREAMS →
     let n := Z.of_nat (length (activeStreams m)) in
     fst (createStream stream m) = NewStream n
     ∧ streams (snd (createStream stream m)) = <[n := stream]> (streams m)
     ∧ activeStreams (snd (createStream stream m))
       = merge_sort Z.le (activeStreams m) ++ [n]).
Proof.
  split; intros H.
  - unfold createStream. by rewrite getNextAvailableStreamId_full.
  - cbn zeta. by rewrite createStream_below_capacity.
Qed.

Lemma createStream_capacity_witness :
  createStream 9%nat (registerAll (seqZ 0 65535) 0%nat fresh)
  = (NotInRange_None, registerAll (seqZ 0 65535) 0%nat fresh)
  ∧ fst (createStream 1%nat (snd (registerStream 0 0%nat fresh))) = NewStream 1.
Proof.
  split.
  - refine (proj1 (createStream_capacity 9%nat
                     (registerAll (seqZ 0 65535) 0%nat fresh)) _).
    apply (count_registerAll_seqZ 65535). unfold MAX_STREAMS. lia.
  - refine (proj1 (proj2 (createStream_capacity 1%nat
                            (snd (registerStream 0 0%nat fresh))) _)).
    vm_compute. reflexivity.
Defined.

(** X6: when the active ids are exactly 0..n-1 (as on a server that
    registered its control stream 0 and then only ever called
    [createStream]), [createStream] returns n, an id that was not active,
    and the active ids become exactly 0..n. *)
Theorem createStream_dense stream m n :
  0 <= n < MAX_STREAMS →
  activeStreams m ≡ₚ seqZ 0 n →
  fst (createStream stream m) = NewStream n
  ∧ (n ∉ activeStreams m)
  ∧ activeStreams (snd (createStream stream m)) ≡ₚ seqZ 0 (n + 1)
  ∧ getStream n (snd (createStream stream m)) = Returned stream.
Proof.
  intros Hn Hperm.
  assert (Hlen : Z.of_nat (length (activeStreams m)) = n).
  { rewrite (Permutation_length Hperm), length_seqZ. lia. }
  rewrite createStream_below_capacity; [|lia]. rewrite Hlen. simpl.
  split_and!.
  - done.
  - rewrite Hperm, elem_of_seqZ. lia.
  - rewrite merge_sort_Permutation, Hperm.
    rewrite seqZ_app by lia. rewrite Z.add_0_l.
    rewrite (seqZ_cons n 1) by lia. by rewrite (seqZ_nil (Z.succ n) (Z.pred 1)) by lia.
  - unfold getStream. simpl. by rewrite lookup_insert_eq.
Qed.

Lemma createStream_dense_witness :
  let m := snd (registerStream 0 0%nat fresh) in
  fst (createStream 1%nat m) = NewStream 1
  ∧ (1 ∉ activeStreams m)
  ∧ getStream 1 (snd (createStream 1%nat m)) = Returned 1%nat.
Proof.
  cbn zeta.
  destruct (createStream_dense 1%nat (snd (registerStream 0 0%nat fresh)) 1)
    as (H1 & H2 & _ & H3).
  - unfold MAX_STREAMS. lia.
  - reflexivity.
  - split_and!; [exact H1|exact H2|exact H3].
Defined.

End StreamRegistryRuns.

(** ** More on the connection state machine *)

Section ConnectionRunsFacts.
Import Connection ConnectionRuns.

Local Ltac crunch :=
  unfold step, connectionMade, dataReceived, decodeStream, decodeHandshake,
    handshakeSuccess, handshakeFailure, connectionLost, new_registry,
    debug_log, emit in *;
  simpl in *;
  repeat (case_match; simpl in *; simplify_eq);
  simpl in *.

Lemma debug_step ev p : debug (snd (step ev p)) = debug p.
Proof. destruct p as [dbg st hs dec enc reg eff]. destruct ev; by crunch. Qed.

Lemma known_state_step ev p : known_state p → known_state (snd (step ev p)).
Proof.
  unfold known_state. destruct p as [dbg st hs dec enc reg eff]. simpl.
  intros H. destruct ev; crunch; intuition (try congruence; eauto).
Qed.

Lemma known_state_run evs p : known_state p → known_state (run evs p).
Proof.
  revert p. induction evs as [|ev evs IH]; intros p Hp; [done|].
  apply (IH (snd (step ev p))). by apply known_state_step.
Qed.

(** X7: on an instance that has only been driven through its own methods,
    [self.state] is missing or one of the two constants, so [dataReceived]
    never takes its unknown-state branch: it raises no [RuntimeError] and
    does not close the transport; the most it does is hand the data to the
    negotiator or to the decoder. *)
Theorem dataReceived_state_is_known dbg evs data :
  let p := run evs (instance dbg) in
  known_state p
  ∧ (∀ msg arg, fst (dataReceived data p) ≠ Raised (RuntimeError msg arg))
  ∧ (effects (snd (dataReceived data p)) = effects p
     ∨ effects (snd (dataReceived data p))
       = effects p ++ [HandshakerDataReceived data]
     ∨ effects (snd (dataReceived data p))
       = effects p ++ [DecoderDataReceived data]).
Proof.
  cbn zeta.
  assert (Hk : known_state (run evs (instance dbg))).
  { apply known_state_run. by left. }
  split; [done|]. destruct (run evs (instance dbg)) as [d st hs dec enc reg eff].
  unfold known_state in Hk. simpl in Hk.
  split; [intros msg arg|]; crunch;
    intuition (try congruence; eauto).
Qed.

Lemma negotiating_data chunks p :
  negotiating p →
  negotiating (run (DataReceived <$> chunks) p)
  ∧ effects (run (DataReceived <$> chunks) p)
    = effects p ++ (HandshakerDataReceived <$> chunks).
Proof.
  revert p. induction chunks as [|c chunks IH]; intros p Hp.
  - split; [done|]. by rewrite app_nil_r.
  - rewrite fmap_cons.
    change (run (DataReceived c :: (DataReceived <$> chunks)) p)
      with (run (DataReceived <$> chunks) (snd (dataReceived c p))).
    assert (Hstep : negotiating (snd (dataReceived c p))
                    ∧ effects (snd (dataReceived c p))
                      = effects p ++ [HandshakerDataReceived c]).
    { destruct Hp as [Hs Hh]. destruct p as [d st hs dec enc reg eff].
      unfold negotiating. simpl in *. subst. by crunch. }
    destruct Hstep as [Hn He]. destruct (IH _ Hn) as [Hn' He'].
    split; [done|]. rewrite He', He, fmap_cons. by rewrite <- app_assoc.
Qed.

Lemma codecs_installed_data chunks p :
  codecs_installed p →
  codecs_installed (run (DataReceived <$> chunks) p)
  ∧ effects (run (DataReceived <$> chunks) p)
    = effects p ++ (DecoderDataReceived <$> chunks).
Proof.
  revert p. induction chunks as [|c chunks IH]; intros p Hp.
  - split; [done|]. by rewrite app_nil_r.
  - rewrite fmap_cons.
    change (run (DataReceived c :: (DataReceived <$> chunks)) p)
      with (run (DataReceived <$> chunks) (snd (dataReceived c p))).
    assert (Hstep : codecs_installed (snd (dataReceived c p))
                    ∧ effects (snd (dataReceived c p))
                      = effects p ++ [DecoderDataReceived c]).
    { destruct Hp as (Hs & Hd & He). destruct p as [d st hs dec enc reg eff].
      unfold codecs_installed. simpl in *. subst. by crunch. }
    destruct Hstep as [Hn He]. destruct (IH _ Hn) as [Hn' He'].
    split; [done|]. rewrite He', He, fmap_cons. by rewrite <- app_assoc.
Qed.

Lemma codecs_installed_handshakeSuccess p :
  codecs_installed (snd (handshakeSuccess p)).
Proof.
  destruct p as [d st hs dec enc reg eff]. unfold codecs_installed.
  by crunch.
Qed.

(** X8: the chunks the transport delivers reach the collaborator of the
    current phase one by one and in the order they arrived: after
    [connectionMade] (with a negotiator built) the negotiator gets each of
    them and the decoder none, after [handshakeSuccess] the decoder gets
    each of them and the negotiator none. *)
Theorem data_is_delivered_in_order p chunks :
  (let q := snd (connectionMade (Returned tt) p) in
   effects (run (DataReceived <$> chunks) q)
   = effects q ++ (HandshakerDataReceived <$> chunks))
  ∧ (let q := snd (handshakeSuccess p) in
     effects (run (DataReceived <$> chunks) q)
     = effects q ++ (DecoderDataReceived <$> chunks)).
Proof.
  split; cbn zeta.
  - apply negotiating_data. destruct p as [d st hs dec enc reg eff].
    unfold negotiating. by crunch.
  - apply codecs_installed_data, codecs_installed_handshakeSuccess.
Qed.

Lemma codecs_installed_step ev p :
  is_ConnectionMade ev = false →
  codecs_installed p → codecs_installed (snd (step ev p)).
Proof.
  intros Hev (Hs & Hd & He). destruct p as [d st hs dec enc reg eff].
  unfold codecs_installed. simpl in *. subst.
  destruct ev; try done; by crunch.
Qed.

Lemma codecs_installed_run evs p :
  forallb (λ ev, negb (is_ConnectionMade ev)) evs = true →
  codecs_installed p → codecs_installed (run evs p).
Proof.
  revert p. induction evs as [|ev evs IH]; intros p Hevs Hp; [done|].
  simpl in Hevs. apply andb_true_iff in Hevs as [Hev Hevs].
  apply (IH (snd (step ev p))); [done|].
  apply codecs_installed_step; [by apply negb_true_iff|done].
Qed.

Lemma codecs_absent_step ev p :
  is_HandshakeSuccess ev = false →
  codecs_absent p → codecs_absent (snd (step ev p)).
Proof.
  intros Hev (Hd & He). destruct p as [d st hs dec enc reg eff].
  unfold codecs_absent. simpl in *. subst.
  destruct ev; try done; by crunch.
Qed.

Lemma codecs_absent_run evs p :
  forallb (λ ev, negb (is_HandshakeSuccess ev)) evs = true →
  codecs_absent p → codecs_absent (run evs p).
Proof.
  revert p. induction evs as [|ev evs IH]; intros p Hevs Hp; [done|].
  simpl in Hevs. apply andb_true_iff in Hevs as [Hev Hevs].
  apply (IH (snd (step ev p))); [done|].
  apply codecs_absent_step; [by apply negb_true_iff|done].
Qed.

(** X9: [connectionLost] on a connection whose handshake succeeded
    (whatever happened on it since, [connectionMade] not being run again)
    pauses the decoder and then the encoder and does nothing else besides
    its debug line; on a connection still in the handshake phase it pauses
    nothing.  In neither case does it close the transport or change the
    state. *)
Theorem connectionLost_pauses_installed_codecs p reason :
  (∀ evs, forallb (λ ev, negb (is_ConnectionMade ev)) evs = true →
     let q := run evs (snd (handshakeSuccess p)) in
     fst (connectionLost reason q) = Returned tt
     ∧ state (snd (connectionLost reason q)) = state q
     ∧ effects (snd (connectionLost reason q))
       = effects q ++ debug_line "Lost connection (reason:%s)" reason q
         ++ [DecoderPause; EncoderPause])
  ∧ (∀ build evs, forallb (λ ev, negb (is_HandshakeSuccess ev)) evs = true →
       let q := run evs (snd (connectionMade build p)) in
       fst (connectionLost reason q) = Returned tt
       ∧ state (snd (connectionLost reason q)) = state q
       ∧ effects (snd (connectionLost reason q))
         = effects q ++ debug_line "Lost connection (reason:%s)" reason q).
Proof.
  split.
  - intros evs Hevs q.
    pose proof (codecs_installed_run evs _ Hevs
                  (codecs_installed_handshakeSuccess p)) as (Hs & Hd & He).
    fold q in Hs, Hd, He. clearbody q.
    destruct q as [d st hs dec enc reg eff]. simpl in *. subst.
    unfold connectionLost, debug_line, debug_log, emit. simpl.
    destruct (d || DEBUG); simpl; split_and!; try done;
      by rewrite <- ?app_assoc.
  - intros build evs Hevs q.
    assert (H0 : codecs_absent (snd (connectionMade build p))).
    { destruct p as [d st hs dec enc reg eff]. unfold codecs_absent.
      by crunch. }
    pose proof (codecs_absent_run evs _ Hevs H0) as (Hd & He).
    fold q in Hd, He. clearbody q.
    destruct q as [d st hs dec enc reg eff]. simpl in *. subst.
    unfold connectionLost, debug_line, debug_log, emit. simpl.
    destruct (d || DEBUG); simpl; split_and!; try done;
      by rewrite ?app_nil_r.
Qed.

Lemma connectionLost_pauses_installed_codecs_witness :
  let q := run [DataReceived "chunk"; HandshakeFailure "late"]
             (snd (handshakeSuccess
                     (snd (connectionMade (Returned tt) (instance false))))) in
  fst (connectionLost "eof" q) = Returned tt
  ∧ effects (snd (connectionLost "eof" q))
    = effects q ++ [DecoderPause; EncoderPause].
Proof.
  cbn zeta.
  destruct (connectionLost_pauses_installed_codecs
              (snd (connectionMade (Returned tt) (instance false))) "eof")
    as [H _].
  destruct (H [DataReceived "chunk"; HandshakeFailure "late"] eq_refl)
    as (H1 & _ & H2).
  split; [exact H1|exact H2].
Defined.

Lemma registry_unset_step ev p :
  is_HandshakeSuccess ev = false →
  registry p = Unset → registry (snd (step ev p)) = Unset.
Proof.
  intros Hev Hr. destruct p as [d st hs dec enc reg eff]. simpl in *. subst.
  destruct ev; try done; by crunch.
Qed.

Lemma registry_unset_run evs p :
  forallb (λ ev, negb (is_HandshakeSuccess ev)) evs = true →
  registry p = Unset → registry (run evs p) = Unset.
Proof.
  revert p. induction evs as [|ev evs IH]; intros p Hevs Hp; [done|].
  simpl in Hevs. apply andb_true_iff in Hevs as [Hev Hevs].
  apply (IH (snd (step ev p))); [done|].
  apply registry_unset_step; [by apply negb_true_iff|done].
Qed.

(** X10: until [handshakeSuccess] has run there is no stream registry on
    the instance: [getNextAvailableStreamId] and [removeStream] raise
    [AttributeError], and [registerStream] raises too ([ValueError] for an
    id out of range, [AttributeError] otherwise), all without changing the
    instance.  Right after [handshakeSuccess] the registry is empty and the
    next available id is 0. *)
Theorem stream_methods_need_handshakeSuccess dbg :
  (∀ evs, forallb (λ ev, negb (is_HandshakeSuccess ev)) evs = true →
     let p := run evs (instance dbg) in
     getNextAvailableStreamId p
     = (Raised (AttributeError "BaseProtocol" "activeStreams"), p)
     ∧ (∀ streamId,
          removeStream streamId p
          = (Raised (AttributeError "BaseProtocol" "streams"), p))
     ∧ (∀ streamId stream,
          is_Raised (fst (registerStream streamId stream p)) = true
          ∧ snd (registerStream streamId stream p) = p))
  ∧ (∀ p, fst (getNextAvailableStreamId (snd (handshakeSuccess p)))
          = Returned (Some 0)
          ∧ ∀ streamId,
              is_Raised (fst (removeStream streamId (snd (handshakeSuccess p))))
              = true).
Proof.
  split.
  - intros evs Hevs p.
    assert (Hr : registry p = Unset)
      by (by apply registry_unset_run).
    unfold getNextAvailableStreamId, removeStream, registerStream.
    rewrite Hr. split_and!; [done|done|].
    intros streamId stream. by destruct (_ || _).
  - intros p. destruct p as [d st hs dec enc reg eff].
    split; [|intros streamId];
      unfold getNextAvailableStreamId, removeStream, handshakeSuccess,
        new_registry, debug_log, emit; simpl;
      destruct (d || DEBUG), hs; simpl; try done.
Qed.

Lemma stream_methods_need_handshakeSuccess_witness :
  let p := run [ConnectionMade (Returned tt); DataReceived "c0c1"]
             (instance false) in
  getNextAvailableStreamId p
  = (Raised (AttributeError "BaseProtocol" "activeStreams"), p).
Proof.
  cbn zeta. destruct (stream_methods_need_handshakeSuccess false) as [H _].
  destruct (H [ConnectionMade (Returned tt); DataReceived "c0c1"] eq_refl)
    as (H1 & _).
  exact H1.
Defined.

End ConnectionRunsFacts.

(** ** More on the call registry *)

Section CallRegistryRuns.
Import Rpc.

Lemma handler_eq h1 h2 :
  _lastCallId h1 = _lastCallId h2 → _activeCalls h1 = _activeCalls h2 →
  h1 = h2.
Proof. destruct h1, h2. simpl. by intros -> ->. Qed.

(** X11: ids that [initiateCall] allocates only go up: an id allocated
    later is larger than one allocated earlier, whatever was initiated
    (with or without an explicit id), finished or discarded in between. *)
Theorem allocated_ids_increase args1 args2 ops h :
  let first := initiateCall args1 None h in
  let later := initiateCall args2 None (run_ops ops (snd first)) in
  ∃ i j, fst first = Returned i ∧ fst later = Returned j ∧ i < j.
Proof.
  cbn zeta.
  exists (getNextCallId h),
    (getNextCallId (run_ops ops (snd (initiateCall args1 None h)))).
  split_and!; [done|done|].
  pose proof (lastCallId_mono ops (snd (initiateCall args1 None h))) as H.
  change (_lastCallId (snd (initiateCall args1 None h)))
    with (_lastCallId h + 1) in H.
  unfold getNextCallId. lia.
Qed.

(** X12: on a handler that started new, an allocated id is at least 1, so
    it is never [NO_RESULT], the id that marks a call without a response. *)
Theorem allocated_id_is_not_NO_RESULT ops args :
  ∃ i, fst (initiateCall args None (run_ops ops new_handler)) = Returned i
       ∧ NO_RESULT < i.
Proof.
  exists (getNextCallId (run_ops ops new_handler)). split; [done|].
  pose proof (lastCallId_mono ops new_handler) as H.
  change (_lastCallId new_handler) with 0 in H.
  unfold getNextCallId, NO_RESULT. lia.
Qed.

(** X13: [finishCall] and [discardCall] for an id that is not active return
    [None] and leave the registry exactly as it was. *)
Theorem finishCall_unknown_id callId h :
  isCallActive callId h = false →
  finishCall callId h = (None, h) ∧ discardCall callId h = (None, h).
Proof.
  intros H. apply isCallActive_false in H. unfold getCallContext in H.
  unfold finishCall, discardCall. rewrite H.
  split; f_equal; apply handler_eq; simpl; try done; by apply delete_id.
Qed.

Lemma finishCall_unknown_id_witness :
  finishCall 3 (snd (initiateCall [VStr "ctx"] None new_handler))
  = (None, snd (initiateCall [VStr "ctx"] None new_handler)).
Proof.
  refine (proj1 (finishCall_unknown_id 3
                   (snd (initiateCall [VStr "ctx"] None new_handler)) _)).
  vm_compute. reflexivity.
Defined.

(** X14: a call that is initiated and then finished hands back the context
    it was initiated with.  If its id was not active before, the active
    calls are again what they were; with an explicit id the whole registry
    is, with an allocated id only the counter has moved on by one. *)
Theorem initiateCall_finishCall args h :
  (∀ callId,
     isCallActive callId h = false →
     finishCall callId (snd (initiateCall args (Some callId) h))
     = (Some args, h))
  ∧ fst (finishCall (getNextCallId h) (snd (initiateCall args None h)))
    = Some args
  ∧ (isCallActive (getNextCallId h) h = false →
     snd (finishCall (getNextCallId h) (snd (initiateCall args None h)))
     = {| _lastCallId := _lastCallId h + 1;
          _activeCalls := _activeCalls h |}).
Proof.
  split_and!.
  - intros callId H. unfold initiateCall. rewrite H.
    apply isCallActive_false in H. unfold getCallContext in H.
    unfold finishCall. simpl. rewrite lookup_insert_eq. f_equal.
    apply handler_eq; simpl; [done|]. by apply delete_insert_id.
  - unfold finishCall, initiateCall. simpl. by rewrite lookup_insert_eq.
  - intros H. apply isCallActive_false in H. unfold getCallContext in H.
    unfold finishCall, initiateCall, getNextCallId in *. simpl.
    f_equal. by apply delete_insert_id.
Qed.

Lemma initiateCall_finishCall_witness :
  finishCall 7 (snd (initiateCall [VStr "ctx"] (Some 7) new_handler))
  = (Some [VStr "ctx"], new_handler)
  ∧ snd (finishCall 1 (snd (initiateCall [VStr "ctx"] None new_handler)))
    = {| _lastCallId := 1; _activeCalls := ∅ |}.
Proof.
  destruct (initiateCall_finishCall [VStr "ctx"] new_handler) as (H1 & _ & H2).
  split.
  - apply (H1 7). vm_compute. reflexivity.
  - apply H2. vm_compute. reflexivity.
Defined.

End CallRegistryRuns.

(** ** More on the call initiator *)

Section CallInitiatorRuns.
Import Rpc.

(** Whatever the response is, its id is not active afterwards. *)
Lemma handleResponse_finishes name callId result command w :
  isCallActive callId
    (handler (snd (handleResponse name callId result command w))) = false.
Proof.
  apply isCallActive_false. unfold getCallContext.
  unfold handleResponse, finishCall.
  destruct (_activeCalls (handler w) !! callId) as [ctx|]; cbn [fst snd].
  - destruct ctx as [|d [|n [|a [|c [|x ctx]]]]]; simpl;
      try apply lookup_delete_eq.
    unfold callback, errback, fire.
    repeat (case_match; simpl); apply lookup_delete_eq.
  - destruct (callId =? NO_RESULT); simpl; apply lookup_delete_eq.
Qed.

(** X15: a response for an id with no active call (a late, repeated or
    unexpected one) is logged and otherwise ignored: [handleResponse]
    returns normally, and the registry, the Deferreds and the messages sent
    are exactly as before; two lines are logged when the id is [NO_RESULT]
    and one otherwise. *)
Theorem handleResponse_unmatched name callId result command w :
  isCallActive callId (handler w) = false →
  let r := handleResponse name callId result command w in
  fst r = Returned tt
  ∧ handler (snd r) = handler w
  ∧ deferreds (snd r) = deferreds w
  ∧ sent (snd r) = sent w
  ∧ length (logged (snd r))
    = (length (logged w) + if (callId =? NO_RESULT)%Z then 2 else 1)%nat.
Proof.
  intros H. apply isCallActive_false in H. unfold getCallContext in H.
  cbn zeta. unfold handleResponse, finishCall. rewrite H. cbn [fst snd].
  assert (Hh : {| _lastCallId := _lastCallId (handler w);
                  _activeCalls := delete callId (_activeCalls (handler w)) |}
               = handler w).
  { apply handler_eq; simpl; [done|]. by apply delete_id. }
  destruct (callId =? NO_RESULT); simpl; rewrite Hh;
    split_and!; try done; rewrite !length_app; simpl; lia.
Qed.

Lemma handleResponse_unmatched_witness :
  let r := handleResponse RESPONSE_RESULT 0 (VInt 5) VNone new_world in
  fst r = Returned tt
  ∧ handler (snd r) = handler new_world
  ∧ deferreds (snd r) = deferreds new_world
  ∧ sent (snd r) = sent new_world
  ∧ length (logged (snd r)) = 2%nat.
Proof.
  cbn zeta.
  apply (handleResponse_unmatched RESPONSE_RESULT 0 (VInt 5) VNone new_world).
  vm_compute. reflexivity.
Defined.





(** X17: a call is resolved at most once: after a response for an id has
    been handled, whatever its name, a further response for the same id
    returns normally and changes neither the registry nor any Deferred. *)
Theorem handleResponse_repeated name1 name2 callId result1 result2
    command1 command2 w :
  let w1 := snd (handleResponse name1 callId result1 command1 w) in
  let r := handleResponse name2 callId result2 command2 w1 in
  fst r = Returned tt
  ∧ handler (snd r) = handler w1
  ∧ deferreds (snd r) = deferreds w1.
Proof.
  cbn zeta.
  pose proof (handleResponse_finishes name1 callId result1 command1 w) as H.
  set (w1 := snd (handleResponse name1 callId result1 command1 w)) in *.
  clearbody w1. apply isCallActive_false in H. unfold getCallContext in H.
  unfold handleResponse, finishCall. rewrite H. cbn [fst snd].
  assert (Hh : {| _lastCallId := _lastCallId (handler w1);
                  _activeCalls := delete callId (_activeCalls (handler w1)) |}
               = handler w1).
  { apply handler_eq; simpl; [done|]. by apply delete_id. }
  destruct (callId =? NO_RESULT); simpl; by rewrite Hh.
Qed.




End CallInitiatorRuns.

(** ** More on exposed methods *)

Section ExposedDispatch.
Import Exposed Dispatch.

Lemma getExposedMethods_uncached cls c h :
  classes h !! cls = Some c → cls_exposed_mro c = None →
  getExposedMethods cls h
  = Some (length (dicts h),
          {| classes :=
               <[cls := {| cls_mro := cls_mro c;
                           cls_exposed := cls_exposed c;
                           cls_exposed_mro := Some (length (dicts h)) |}]>
                 (classes h);
             dicts := dicts h ++ [foldl (merge_step h) ∅ (cls_mro c)] |}).
Proof.
  intros Hc Hno. unfold getExposedMethods. rewrite Hc. simpl. rewrite Hno.
  by rewrite visit_all_fresh.
Qed.

Lemma merge_step_None h k mro acc :
  foldl (merge_step h) acc mro !! k = None
  ↔ acc !! k = None ∧ unexposed k mro h.
Proof.
  unfold unexposed. revert acc. induction mro as [|i mro IH]; intros acc; simpl.
  - split; [intros H; split; [done|constructor]|by intros [H _]].
  - rewrite IH, Forall_cons. unfold merge_step.
    destruct (declared i h) as [m|] eqn:E.
    + rewrite lookup_union_None. split.
      * intros [[Hm Hacc] Hrest]. split_and!; [done| |done].
        intros m' Hm'. by simplify_eq.
      * intros (Hacc & Hi & Hrest). split_and!; [by apply Hi|done|done].
    + split.
      * intros [Hacc Hrest]. split_and!; [done| |done]. by intros m' Hm'.
      * intros (Hacc & _ & Hrest). by split.
Qed.

(** X19: the table resolved for a class has a name exactly when some class
    of its MRO exposes that name: nothing is lost along the chain and
    nothing is made up. *)
Theorem resolved_names cls c h k :
  classes h !! cls = Some c → cls_exposed_mro c = None →
  ∃ table, resolve cls h = Some table
           ∧ (table !! k = None ↔ unexposed k (cls_mro c) h).
Proof.
  intros Hc Hno. eexists. split; [by apply resolve_uncached|].
  rewrite merge_step_None. rewrite lookup_empty.
  split; [by intros [_ ?]|by intros ?; split].
Qed.

Lemma resolved_names_witness :
  ∃ table, resolve "Derived" base_and_derived = Some table
           ∧ (table !! "bar" = None
              ↔ unexposed "bar" ["Derived"; "Base"; "object"] base_and_derived).
Proof.
  refine (resolved_names "Derived"
            {| cls_mro := ["Derived"; "Base"; "object"];
               cls_exposed := Some 1%nat; cls_exposed_mro := None |}
            base_and_derived "bar" _ _).
  - vm_compute. reflexivity.
  - reflexivity.
Defined.

(** X20: resolving a class writes nothing but the class's own
    [__exposed_mro__] slot and one new dict: the dicts that existed keep
    their contents, the other classes are untouched, and every class,
    the resolved one included, keeps its [__exposed__] declarations. *)
Theorem getExposedMethods_leaves_declarations cls c h :
  classes h !! cls = Some c →
  ∃ ret h',
    getExposedMethods cls h = Some (ret, h')
    ∧ (∀ r, (r < length (dicts h))%nat → dicts h' !! r = dicts h !! r)
    ∧ (∀ other, other ≠ cls → classes h' !! other = classes h !! other)
    ∧ (∀ i, exposed_of i h' = exposed_of i h).
Proof.
  intros Hc. destruct (cls_exposed_mro c) as [methods|] eqn:Hm.
  - exists methods, h. unfold getExposedMethods. rewrite Hc. simpl.
    rewrite Hm. by split_and!.
  - eexists _, _. split; [by apply getExposedMethods_uncached|]. simpl.
    split_and!.
    + intros r Hr. by apply lookup_app_l.
    + intros other Hne. by apply lookup_insert_ne.
    + intros i. unfold exposed_of. simpl.
      destruct (decide (i = cls)) as [->|Hne].
      * by rewrite lookup_insert_eq, Hc.
      * by rewrite lookup_insert_ne.
Qed.

Lemma getExposedMethods_leaves_declarations_witness :
  ∃ ret h',
    getExposedMethods "Derived" base_and_derived = Some (ret, h')
    ∧ (∀ r, (r < length (dicts base_and_derived))%nat →
            dicts h' !! r = dicts base_and_derived !! r)
    ∧ (∀ other, other ≠ "Derived" →
                classes h' !! other = classes base_and_derived !! other)
    ∧ (∀ i, exposed_of i h' = exposed_of i base_and_derived).
Proof.
  refine (getExposedMethods_leaves_declarations "Derived"
            {| cls_mro := ["Derived"; "Base"; "object"];
               cls_exposed := Some 1%nat; cls_exposed_mro := None |}
            base_and_derived _).
  vm_compute. reflexivity.
Defined.

End ExposedDispatch.

Section CallExposed.
Import Exposed Dispatch.






End CallExposed.
